(** * autoupload.py: the directory-watching FTP upload daemon

    A shallow embedding of [src/autoupload.py].  The Python methods of
    [AutoUploadModule] become functions in a state-and-exception monad over
    an explicit program state (file system, progress table, bounded queue,
    in-flight list, event log).  The threads of the daemon become a step
    relation whose steps are the atomic actions of the scanner and of the
    workers.  Debug tracing ([debug(...)]) writes nothing unless
    [DEBUG_MODE] is set and is left out of the model. *)

From stdpp Require Import gmap strings list fin_maps.
From Stdlib.Strings Require Import Byte Ascii.

Open Scope string_scope.

(** ** Python exceptions *)

Inductive exn : Type :=
  | FtpError            (* ftplib.Error and its subclasses *)
  | FileNotFoundError
  | PermissionError
  | OSError             (* any other OSError (socket errors, ...) *)
  | KeyError
  | ValueError
  | QueueFull
  | QueueEmpty.

#[global] Instance exn_eq_dec : EqDecision exn.
Proof. solve_decision. Defined.

(** [except ftplib.Error] *)
Definition is_ftplib_Error (e : exn) : bool :=
  match e with FtpError => true | _ => false end.

(** ** os.path on POSIX *)

Module Path.

Definition sep : ascii := "/"%char.

Fixpoint has_sep (s : string) : bool :=
  match s with
  | EmptyString => false
  | String c r => if Ascii.eqb c sep then true else has_sep r
  end.

Fixpoint endswith_sep (s : string) : bool :=
  match s with
  | EmptyString => false
  | String c EmptyString => Ascii.eqb c sep
  | String _ r => endswith_sep r
  end.

Definition startswith_sep (s : string) : bool :=
  match s with
  | String c _ => Ascii.eqb c sep
  | EmptyString => false
  end.

(** [os.path.join(a, b)] *)
Definition join (a b : string) : string :=
  if startswith_sep b then b
  else if (String.eqb a "" || endswith_sep a)%bool then a ++ b
  else a ++ String sep b.

(** [os.path.basename(p)]: what follows the last separator. *)
Fixpoint basename (p : string) : string :=
  match p with
  | EmptyString => EmptyString
  | String c r =>
      if has_sep r then basename r
      else if Ascii.eqb c sep then r else p
  end.

(** [os.path.isabs(p)] *)
Definition isabs (p : string) : bool := startswith_sep p.

(** [strip_prefix pre s] is [Some r] when [s = pre ++ r]. *)
Fixpoint strip_prefix (pre s : string) : option string :=
  match pre, s with
  | EmptyString, _ => Some s
  | String a pre', String b s' =>
      if Ascii.eqb a b then strip_prefix pre' s' else None
  | String _ _, EmptyString => None
  end.

(** The name of [k] as a direct entry of directory [d], if it is one. *)
Definition entry_name (d k : string) : option string :=
  match strip_prefix (if endswith_sep d then d else d ++ String sep "") k with
  | Some n => if (String.eqb n "" || has_sep n)%bool then None else Some n
  | None => None
  end.

End Path.

(** Truthiness of a Python string: [if s:] *)
Definition truthy (s : string) : bool := negb (String.eqb s "").

(** ** The file system *)

Inductive node : Type :=
  | File (data : list byte)
  | Dir.

Definition isfile_in (fs : gmap string node) (p : string) : bool :=
  match fs !! p with Some (File _) => true | _ => false end.

Definition isdir_in (fs : gmap string node) (p : string) : bool :=
  match fs !! p with Some Dir => true | _ => false end.

(** The entries of directory [d], in the order the file system lists them. *)
Definition entries (fs : gmap string node) (d : string) : list string :=
  omap (Path.entry_name d) (map fst (map_to_list fs)).

(** ** The progress display (rich.progress.Progress) *)

Record task : Type := Task {
  description : string;
  total : nat;
  completed : nat;
  started : bool
}.

(** ** What the program does to the outside world *)

Inductive stream : Type := Stdout | Stderr.

Inductive message : Type :=
  | MsgErrorConnecting (server : string) (e : exn)  (* "Error connecting to {server}: {e}" *)
  | MsgError (e : exn)                              (* "Error: {e}" *)
  | MsgErrorStoring (name : string) (e : exn)       (* "Error storing file {name}: {e}" *)
  | MsgFileNotFound (name : string)                 (* "{name} - File not found" *)
  | MsgFileInUse (name : string)                    (* "{name} - File in use" *)
  | MsgRemoved (name : string)                      (* "{name} has been removed" *)
  | MsgZeroSize (name : string)                     (* "{name} zero file size" *)
  | MsgUploaded (name : string)                     (* "{name}" *)
  | MsgCannotAccess (name : string)                 (* "{name} cannot be accessed" *)
  | MsgFileError (name : string) (e : exn)          (* "{name} - Error: {e}" *)
  | MsgAlreadyIn (name dir : string).               (* "{name} already in {dir}" *)

Inductive event : Type :=
  | EvPrint (out : stream) (m : message)
  | EvSleep (seconds : nat)
  | EvRefresh
  | EvAddTask (id : nat) (name : string) (size : nat)
  | EvStartTask (id : nat)
  | EvUpdate (id : nat) (advance : nat)
  | EvRemoveTask (id : nat)
  | EvConnect (host : string) (port : nat)
  | EvLogin (user passwd : string)
  | EvEncoding (enc : string)
  | EvCwd (dir : string)
  | EvStor (cmd : string)
  | EvSend (block : list byte)
  | EvStorComplete (cmd : string)
  | EvQuit
  | EvRename (src dst : string)
  | EvRemove (path : string).

(** ** Program state

    [log] holds the events so far, the most recent one first. *)

Record state : Type := State {
  fs : gmap string node;
  tasks : gmap nat task;        (* Progress._tasks *)
  next_task : nat;              (* Progress._task_index *)
  queue : list string;          (* self.queue, oldest first *)
  unfinished : nat;             (* Queue.unfinished_tasks *)
  files : list string;          (* self.files *)
  run : bool;                   (* self.run *)
  log : list event
}.

Definition set_fs (f : gmap string node) (s : state) : state :=
  State f (tasks s) (next_task s) (queue s) (unfinished s) (files s) (run s) (log s).
Definition set_tasks (t : gmap nat task) (s : state) : state :=
  State (fs s) t (next_task s) (queue s) (unfinished s) (files s) (run s) (log s).
Definition set_next_task (n : nat) (s : state) : state :=
  State (fs s) (tasks s) n (queue s) (unfinished s) (files s) (run s) (log s).
Definition set_queue (q : list string) (s : state) : state :=
  State (fs s) (tasks s) (next_task s) q (unfinished s) (files s) (run s) (log s).
Definition set_unfinished (n : nat) (s : state) : state :=
  State (fs s) (tasks s) (next_task s) (queue s) n (files s) (run s) (log s).
Definition set_files (l : list string) (s : state) : state :=
  State (fs s) (tasks s) (next_task s) (queue s) (unfinished s) l (run s) (log s).
Definition set_run (b : bool) (s : state) : state :=
  State (fs s) (tasks s) (next_task s) (queue s) (unfinished s) (files s) b (log s).
Definition set_log (l : list event) (s : state) : state :=
  State (fs s) (tasks s) (next_task s) (queue s) (unfinished s) (files s) (run s) l.

(** ** The monad: state passing with Python exceptions *)

Inductive result (A : Type) : Type :=
  | Ok (a : A)
  | Raise (e : exn).
Arguments Ok {A} a.
Arguments Raise {A} e.

Definition M (A : Type) : Type := state -> result A * state.

Definition ret {A} (a : A) : M A := fun s => (Ok a, s).
Definition raise {A} (e : exn) : M A := fun s => (Raise e, s).
Definition bind {A B} (c : M A) (k : A -> M B) : M B :=
  fun s => match c s with
           | (Ok a, s') => k a s'
           | (Raise e, s') => (Raise e, s')
           end.

Notation "x <- c ;; k" := (bind c (fun x => k))
  (at level 100, c at next level, right associativity).
Notation "c ;; k" := (bind c (fun _ => k))
  (at level 100, right associativity).

(** [try: c  except ...: h e]; the handler answers [None] for an exception
    that no [except] clause matches, which then propagates. *)
Definition try_except {A} (c : M A) (h : exn -> option (M A)) : M A :=
  fun s => match c s with
           | (Ok a, s') => (Ok a, s')
           | (Raise e, s') =>
               match h e with
               | Some k => k s'
               | None => (Raise e, s')
               end
           end.

(** [try: c  finally: f] *)
Definition try_finally {A} (c : M A) (f : M unit) : M A :=
  fun s => match c s with
           | (r, s') =>
               match f s' with
               | (Ok _, s'') => (r, s'')
               | (Raise e, s'') => (Raise e, s'')
               end
           end.

(** [for x in l: body x] *)
Fixpoint for_each {A} (l : list A) (body : A -> M unit) : M unit :=
  match l with
  | [] => ret tt
  | x :: l' => body x ;; for_each l' body
  end.

Definition get {A} (f : state -> A) : M A := fun s => (Ok (f s), s).
Definition modify (f : state -> state) : M unit := fun s => (Ok tt, f s).
Definition emit (e : event) : M unit := modify (fun s => set_log (e :: log s) s).

Definition print (out : stream) (m : message) : M unit := emit (EvPrint out m).
Definition sleep (seconds : nat) : M unit := emit (EvSleep seconds).

(** ** Operating-system primitives

    The outside world may make a step fail although the modelled file system
    would allow it (a refused connection, a file locked or removed by
    another process in the middle of a call).  An [env] fixes these outcomes
    for one attempt at processing a file. *)

Record env : Type := Env {
  getsize_fault : option exn;        (* os.path.getsize raises: the file went after the isfile test *)
  connect_fault : option exn;        (* no connection: socket.create_connection raises *)
  greeting_fault : option exn;       (* connected, but the server greets with an error reply *)
  login_fault : option exn;          (* connected, but USER or PASS is answered with an error *)
  cwd_fault : option exn;            (* ftp.cwd raises *)
  open_fault : option exn;           (* open(file_path, "rb") raises *)
  stor_fault : option (nat * exn);   (* the transfer breaks after that many blocks *)
  quit_fault : option exn;           (* QUIT cannot be sent: the connection is lost *)
  bye_fault : option exn;            (* QUIT is sent and answered with an error, or not at all *)
  rename_fault : option exn;         (* os.rename raises *)
  remove_fault : option exn          (* os.remove raises *)
}.

(** The world in which nothing fails. *)
Definition calm : env := Env None None None None None None None None None None None.

Definition fault (f : option exn) : M unit :=
  match f with
  | Some e => raise e
  | None => ret tt
  end.

Definition os_isfile (p : string) : M bool :=
  get (fun s => isfile_in (fs s) p).

(** [os.path.getsize]; it is called after [isfile] has answered [True],
    and fails when the file has gone in between.  The size of a directory
    depends on the platform and is never asked for. *)
Definition os_getsize (w : env) (p : string) : M nat :=
  fault (getsize_fault w) ;;
  fun s => match fs s !! p with
           | Some (File d) => (Ok (length d), s)
           | Some Dir => (Ok 4096, s)
           | None => (Raise FileNotFoundError, s)
           end.

Definition os_listdir (d : string) : M (list string) :=
  fun s => if isdir_in (fs s) d then (Ok (entries (fs s) d), s)
           else (Raise FileNotFoundError, s).

Definition os_rename (w : env) (src dst : string) : M unit :=
  fault (rename_fault w) ;;
  fun s => match fs s !! src with
           | None => (Raise FileNotFoundError, s)
           | Some n =>
               match fs s !! dst with
               | Some Dir => (Raise OSError, s)
               | _ => emit (EvRename src dst) (set_fs (<[dst := n]> (delete src (fs s))) s)
               end
           end.

Definition os_remove (w : env) (p : string) : M unit :=
  fault (remove_fault w) ;;
  fun s => match fs s !! p with
           | None => (Raise FileNotFoundError, s)
           | Some Dir => (Raise OSError, s)
           | Some (File _) => emit (EvRemove p) (set_fs (delete p (fs s)) s)
           end.

(** [open(p, "rb")]: the bytes the file object will deliver. *)
Definition open_rb (w : env) (p : string) : M (list byte) :=
  fault (open_fault w) ;;
  fun s => match fs s !! p with
           | Some (File d) => (Ok d, s)
           | Some Dir => (Raise OSError, s)
           | None => (Raise FileNotFoundError, s)
           end.

(** ** rich.progress.Progress *)

Module Progress.

Definition refresh : M unit := emit EvRefresh.

(** [add_task(description, total=..., start=...)] *)
Definition add_task (name : string) (size : nat) (start : bool) : M nat :=
  fun s =>
    let id := next_task s in
    (Ok id,
     set_log (EvAddTask id name size :: log s)
       (set_next_task (S id)
          (set_tasks (<[id := Task name size 0 start]> (tasks s)) s))).

Definition start_task (id : nat) : M unit :=
  fun s => match tasks s !! id with
           | None => (Raise KeyError, s)
           | Some t =>
               emit (EvStartTask id)
                 (set_tasks (<[id := Task (description t) (total t) (completed t) true]> (tasks s)) s)
           end.

(** [update(task, advance=n)] *)
Definition update (id : nat) (advance : nat) : M unit :=
  fun s => match tasks s !! id with
           | None => (Raise KeyError, s)
           | Some t =>
               emit (EvUpdate id advance)
                 (set_tasks (<[id := Task (description t) (total t) (completed t + advance) (started t)]> (tasks s)) s)
           end.

(** [remove_task]: [del self._tasks[task_id]] *)
Definition remove_task (id : nat) : M unit :=
  fun s => match tasks s !! id with
           | None => (Raise KeyError, s)
           | Some _ => emit (EvRemoveTask id) (set_tasks (delete id (tasks s)) s)
           end.

End Progress.

(** ** queue.Queue and the list of tracked paths *)

Module Queue.

(** [put(item, block=False)] on a queue of capacity [maxsize] *)
Definition put_nowait (maxsize : nat) (item : string) : M unit :=
  fun s =>
    if Nat.ltb 0 maxsize && Nat.leb maxsize (length (queue s)) then (Raise QueueFull, s)
    else (Ok tt, set_unfinished (S (unfinished s)) (set_queue (queue s ++ [item]) s)).

(** [get(False)] *)
Definition get_nowait : M string :=
  fun s => match queue s with
           | [] => (Raise QueueEmpty, s)
           | item :: q => (Ok item, set_queue q s)
           end.

(** [task_done()] *)
Definition task_done : M unit :=
  fun s => match unfinished s with
           | 0 => (Raise ValueError, s)
           | S n => (Ok tt, set_unfinished n s)
           end.

End Queue.

(** [list.remove(x)]: drops the first occurrence, [None] when there is none. *)
Fixpoint remove_first (x : string) (l : list string) : option (list string) :=
  match l with
  | [] => None
  | y :: l' =>
      if String.eqb x y then Some l'
      else match remove_first x l' with
           | Some r => Some (y :: r)
           | None => None
           end
  end.

Definition files_append (p : string) : M unit :=
  modify (fun s => set_files (files s ++ [p]) s).

Definition files_remove (p : string) : M unit :=
  fun s => match remove_first p (files s) with
           | Some l => (Ok tt, set_files l s)
           | None => (Raise ValueError, s)
           end.

(** ** ftplib.FTP *)

Module FTP.

(** [ftplib.FTP_PORT], the port [connect] uses when none is given. *)
Definition FTP_PORT : nat := 21.

(** [ftplib.FTP(host=..., user=..., passwd=...)]: when a host is given,
    connect to it, read the server's greeting, and then log in when a user
    name is given.  The socket may fail to connect; once it is connected,
    the greeting or the reply to the login may be an error. *)
Definition open (w : env) (host user passwd : string) : M unit :=
  if truthy host then
    fault (connect_fault w) ;;
    emit (EvConnect host FTP_PORT) ;;
    fault (greeting_fault w) ;;
    if truthy user then
      emit (EvLogin user passwd) ;;
      fault (login_fault w)
    else ret tt
  else ret tt.

Definition set_encoding (enc : string) : M unit := emit (EvEncoding enc).

Definition cwd (w : env) (dir : string) : M unit :=
  fault (cwd_fault w) ;;
  emit (EvCwd dir).

(** [quit()]: send QUIT, read the reply, close the socket.  Sending fails
    on a lost connection, and the reply may be an error. *)
Definition quit (w : env) : M unit :=
  fault (quit_fault w) ;;
  emit EvQuit ;;
  fault (bye_fault w).

(** The transfer may break: [Some (0, e)] raises [e] on the next send. *)
Definition sendall (f : option (nat * exn)) (buf : list byte) : M unit :=
  match f with
  | Some (0, e) => raise e
  | _ => emit (EvSend buf)
  end.

Definition later (f : option (nat * exn)) : option (nat * exn) :=
  match f with
  | Some (S k, e) => Some (k, e)
  | other => other
  end.

(** The loop of [storbinary]: read a block, stop at end of file, send it,
    call back.  Every round with a positive block size consumes a byte,
    so [fuel] above the length of the data is never used up.  The loop
    hands back the fault that has not struck yet. *)
Fixpoint stor_loop (fuel : nat) (f : option (nat * exn)) (blocksize : nat)
    (callback : list byte -> M unit) (fp : list byte) : M (option (nat * exn)) :=
  match fuel with
  | 0 => ret f
  | S fuel' =>
      match take blocksize fp with
      | [] => ret f
      | buf =>
          sendall f buf ;;
          callback buf ;;
          stor_loop fuel' (later f) blocksize callback (drop blocksize fp)
      end
  end.

(** [storbinary(cmd, fp, blocksize, callback)]; a fault that did not strike
    during the transfer strikes at the final reply. *)
Definition storbinary (w : env) (cmd : string) (fp : list byte) (blocksize : nat)
    (callback : list byte -> M unit) : M unit :=
  emit (EvStor cmd) ;;
  pending <- stor_loop (S (length fp)) (stor_fault w) blocksize callback fp ;;
  match pending with
  | Some (_, e) => raise e
  | None => emit (EvStorComplete cmd)
  end.

End FTP.

(** ** FtpUploadTracker *)

Record FtpUploadTracker : Type := Tracker {
  task_of : nat       (* self.task; self.bar is the one progress display *)
}.

(** [handle(self, block)] *)
Definition handle (t : FtpUploadTracker) (block : list byte) : M unit :=
  Progress.update (task_of t) 1024.

(** ** AutoUploadModule *)

Inductive thread : Type :=
  | WorkerThread (n : nat)     (* Thread(target=self._worker_thread, args=(n,)) *)
  | ScannerThread.             (* Thread(target=self._scanner_thread) *)

(** The attributes [__init__] sets and no method changes afterwards; the
    queue, [self.files] and [self.run] live in the [state]. *)
Record AutoUploadModule : Type := Uploader {
  source_dir : string;
  server : string;
  user : string;
  passwd : string;
  rm : bool;
  mv : string;
  remote_dir : string;
  num_threads : nat;
  workers : list thread
}.

(** [queue.Queue(maxsize=15)] *)
Definition maxsize : nat := 15.

(** [AutoUploadModule.__init__] *)
Definition init (source_dir server : string) (num_threads : nat)
    (user password : string) (remove : bool) (move_to remote_dir : string)
    : AutoUploadModule :=
  Uploader source_dir server user password remove move_to remote_dir num_threads
    (map WorkerThread (seq 0 num_threads)).

(** [start]: raise the flag, add the scanner thread; every thread of the
    result is started. *)
Definition start (self : AutoUploadModule) : M (list thread) :=
  modify (set_run true) ;;
  ret (workers self ++ [ScannerThread])%list.

(** [stop]: lower the flag (the joins wait for the loops to see it). *)
Definition stop : M unit := modify (set_run false).

Section Methods.

Variable self : AutoUploadModule.

Definition _upload_file (w : env) (file_path remote_name : string)
    (prg_task : nat) : M bool :=
  let tracker := Tracker prg_task in
  Progress.refresh ;;
  connected <-
    try_except (FTP.open w (server self) (user self) (passwd self) ;; ret true)
      (fun e => if is_ftplib_Error e
                then Some (print Stderr (MsgErrorConnecting (server self) e) ;;
                           ret false)
                else None) ;;
  if negb connected then ret false else
  FTP.set_encoding "utf-8" ;;
  entered <-
    try_except (FTP.cwd w (remote_dir self) ;; ret true)
      (fun e => if is_ftplib_Error e
                then Some (print Stderr (MsgError e) ;; FTP.quit w ;; ret false)
                else None) ;;
  if negb entered then ret false else
  _ret <-
    try_except
      (f <- open_rb w file_path ;;
       try_except
         (Progress.start_task prg_task ;;
          FTP.storbinary w ("STOR " ++ remote_name) f 1024 (handle tracker) ;;
          ret true)
         (fun e => if is_ftplib_Error e
                   then Some (print Stdout (MsgErrorStoring remote_name e) ;;
                              ret false)
                   else None))
      (fun e => match e with
                | FileNotFoundError =>
                    Some (print Stdout (MsgFileNotFound remote_name) ;; ret false)
                | PermissionError =>
                    Some (print Stdout (MsgFileInUse remote_name) ;; ret false)
                | _ => None
                end) ;;
  FTP.quit w ;;
  if negb _ret then ret false else ret true.

Definition _move_file (w : env) (file_path file_name : string)
    (prg_task : nat) : M unit :=
  let _new_path := Path.join (mv self) file_name in
  os_rename w file_path _new_path ;;
  Progress.remove_task prg_task.

Definition _delete_file (w : env) (file_path : string) (prg_task : nat) : M unit :=
  os_remove w file_path ;;
  Progress.remove_task prg_task.

Definition _append_file (file_path : string) : M unit :=
  tracked <- get (fun s => bool_decide (file_path ∈ files s)) ;;
  if tracked then ret tt else
  present <- os_isfile file_path ;;
  if negb present then ret tt else
  try_except
    (Queue.put_nowait maxsize file_path ;;
     files_append file_path)
    (fun e => match e with
              | QueueFull => Some (sleep 5)
              | _ => None
              end).

(** In the [try] block [Some b] stands for [return b] and [None] for
    falling through to the code after the handlers. *)
Definition _process_file (w : env) (file_path : string) : M bool :=
  let file_name := Path.basename file_path in
  present <- os_isfile file_path ;;
  if negb present then print Stderr (MsgRemoved file_name) ;; ret false else
  file_size <- os_getsize w file_path ;;
  if Nat.eqb file_size 0 then print Stderr (MsgZeroSize file_name) ;; ret false else
  prog_task <- Progress.add_task file_name file_size false ;;
  returned <-
    try_except
      (uploaded <- _upload_file w file_path file_name prog_task ;;
       if uploaded then
         (if truthy (mv self) then _move_file w file_path file_name prog_task
          else if rm self then _delete_file w file_path prog_task
          else ret tt) ;;
         print Stdout (MsgUploaded file_name) ;;
         ret (Some true)
       else ret None)
      (fun e => match e with
                | PermissionError =>
                    Some (print Stderr (MsgCannotAccess file_name) ;; ret None)
                | _ =>
                    Some (print Stderr (MsgFileError file_name e) ;; ret None)
                end) ;;
  match returned with
  | Some b => ret b
  | None => Progress.remove_task prog_task ;; ret false
  end.

(** One round of the loop of [_worker_thread]. *)
Definition worker_round (w : env) : M unit :=
  file_path <-
    try_except (p <- Queue.get_nowait ;; ret (Some p))
      (fun e => match e with
                | QueueEmpty => Some (sleep 1 ;; ret None)
                | _ => None
                end) ;;
  match file_path with
  | Some p =>
      if truthy p then
        try_finally
          (try_except
             (_process_file w p ;;
              if (rm self || truthy (mv self))%bool then files_remove p else ret tt)
             (fun e => match e with
                       | ValueError => Some (ret tt)
                       | _ => Some (print Stderr (MsgFileError (Path.basename p) e))
                       end))
          Queue.task_done
      else ret tt
  | None => ret tt
  end.

(** One round of the loop of [_scanner_thread]. *)
Definition scanner_round : M unit :=
  sleep 1 ;;
  listing <- os_listdir (source_dir self) ;;
  found <- get (fun s => filter (fun f => isfile_in (fs s) (Path.join (source_dir self) f) = true) listing) ;;
  for_each found (fun file =>
    let source_path := Path.join (source_dir self) file in
    blocked <-
      (if truthy (mv self) then
         let target_path := Path.join (mv self) file in
         there <- os_isfile target_path ;;
         if there then print Stdout (MsgAlreadyIn file (mv self)) ;; ret true
         else ret false
       else ret false) ;;
    if blocked then ret tt else _append_file source_path).

End Methods.

(** ** The command line and the main program *)

Record args : Type := Args {
  arg_source : string;
  arg_ftp_server : string;
  arg_threads : nat;
  arg_ftp_user : string;
  arg_ftp_password : string;
  arg_ftp_port : nat;
  arg_ftp_dir : string;
  arg_move : string;
  arg_remove : bool;
  arg_debug : bool
}.

(** The defaults of the optional arguments. *)
Definition parse_defaults (source ftp_server : string) : args :=
  Args source ftp_server 3 "anonymous" "" 22 "/" "" false false.

Section Main.

(** [os.path.abspath] depends on the working directory of the process. *)
Variable abspath : string -> string.

(** The main program up to the construction of the uploader: an exit code
    or the uploader that is then started. *)
Definition main (a : args) (fs0 : gmap string node) : nat + AutoUploadModule :=
  let source_directory := arg_source a in
  let ftp_server := arg_ftp_server a in
  let ftp_user := arg_ftp_user a in
  let ftp_password := arg_ftp_password a in
  let delete := arg_remove a in
  let move_dir := arg_move a in
  let source_directory :=
    if negb (Path.isabs source_directory) then abspath source_directory
    else source_directory in
  if negb (isdir_in fs0 source_directory) then inl 1 else
  let checked : nat + string :=
    if truthy move_dir then
      if delete then inl 3 else
      let move_dir :=
        if negb (Path.isabs move_dir) then abspath move_dir else move_dir in
      if negb (isdir_in fs0 move_dir) then inl 2 else inr move_dir
    else inr move_dir in
  match checked with
  | inl code => inl code
  | inr move_dir =>
      inr (init source_directory ftp_server 3 ftp_user ftp_password delete
             move_dir (arg_ftp_dir a))
  end.

End Main.

(** ** The threads, one atomic action at a time

    [_append_file] and the loop bodies are cut at the points where another
    thread can run in between: each thread between the test of [self.run]
    at the head of its loop and what follows; the scanner between the
    membership test, the push and the recording of a path; a worker between
    taking a path, processing it and releasing it. *)

Section Actions.

Variable self : AutoUploadModule.

(** The scanner after its loop test, up to the [for]: sleep, list the
    directory, keep the files. *)
Definition scan_begin : M (list string) :=
  sleep 1 ;;
  listing <- os_listdir (source_dir self) ;;
  get (fun s => filter (fun f => isfile_in (fs s) (Path.join (source_dir self) f) = true) listing).

(** The move-mode test at the head of the [for] body. *)
Definition scan_blocked (file : string) : M bool :=
  if truthy (mv self) then
    let target_path := Path.join (mv self) file in
    there <- os_isfile target_path ;;
    if there then print Stdout (MsgAlreadyIn file (mv self)) ;; ret true
    else ret false
  else ret false.

(** The body of the scanner's [for]. *)
Definition visit (file : string) : M unit :=
  blocked <- scan_blocked file ;;
  if blocked then ret tt else _append_file (Path.join (source_dir self) file).

(** [file_path not in self.files] *)
Definition append_test (file_path : string) : M bool :=
  get (fun s => bool_decide (file_path ∈ files s)).

(** [isfile] and the [put]; [true] when the path went into the queue. *)
Definition append_push (file_path : string) : M bool :=
  present <- os_isfile file_path ;;
  if negb present then ret false else
  try_except (Queue.put_nowait maxsize file_path ;; ret true)
    (fun e => match e with
              | QueueFull => Some (sleep 5 ;; ret false)
              | _ => None
              end).

(** [self.files.append(file_path)] *)
Definition append_record (file_path : string) : M unit :=
  files_append file_path.

(** The [try: get / except Empty: sleep] at the head of the worker loop. *)
Definition work_take : M (option string) :=
  try_except (p <- Queue.get_nowait ;; ret (Some p))
    (fun e => match e with
              | QueueEmpty => Some (sleep 1 ;; ret None)
              | _ => None
              end).

(** What follows [_process_file] in the worker, given how it ended. *)
Definition work_release (p : string) (r : result bool) : M unit :=
  try_finally
    (try_except
       ((fun s => (r, s)) ;;
        if (rm self || truthy (mv self))%bool then files_remove p else ret tt)
       (fun e => match e with
                 | ValueError => Some (ret tt)
                 | _ => Some (print Stderr (MsgFileError (Path.basename p) e))
                 end))
    Queue.task_done.

End Actions.

Inductive scanner_pc : Type :=
  | ScanTop                                         (* at [while self.run] *)
  | ScanAwake                                       (* the flag was up: about to sleep and list *)
  | ScanFor (rest : list string)                    (* in the [for], names still to visit *)
  | ScanChecked (p : string) (rest : list string)   (* [p] found absent from [self.files] *)
  | ScanPushed (p : string) (rest : list string)    (* [p] put, not yet appended *)
  | ScanEnded.

Inductive worker_pc : Type :=
  | WorkTop                                         (* at [while self.run] *)
  | WorkReady                                       (* the flag was up: about to [get] *)
  | WorkHolding (p : string)                        (* [p] taken from the queue *)
  | WorkProcessed (p : string) (r : result bool)    (* [_process_file p] is over *)
  | WorkEnded.

Record system : Type := System {
  shared : state;
  scanner : scanner_pc;
  pool : list worker_pc
}.

(** The pool after [start]: one worker per thread that [__init__] created. *)
Definition boot (self : AutoUploadModule) (fs0 : gmap string node) : system :=
  System (State fs0 ∅ 0 [] 0 [] true []) ScanTop
    (map (fun _ => WorkTop) (workers self)).

Definition after_take (fp : option string) : worker_pc :=
  match fp with
  | Some p => if truthy p then WorkHolding p else WorkTop
  | None => WorkTop
  end.

Inductive step (self : AutoUploadModule) : system -> system -> Prop :=
  | step_scan_enter s ws :
      run s = true ->
      step self (System s ScanTop ws) (System s ScanAwake ws)
  | step_scan_begin s s' found ws :
      scan_begin self s = (Ok found, s') ->
      step self (System s ScanAwake ws) (System s' (ScanFor found) ws)
  | step_scan_crash s s' e ws :
      scan_begin self s = (Raise e, s') ->
      step self (System s ScanAwake ws) (System s' ScanEnded ws)
  | step_scan_exit s ws :
      run s = false ->
      step self (System s ScanTop ws) (System s ScanEnded ws)
  | step_scan_done s ws :
      step self (System s (ScanFor []) ws) (System s ScanTop ws)
  | step_scan_blocked s s' file rest ws :
      scan_blocked self file s = (Ok true, s') ->
      step self (System s (ScanFor (file :: rest)) ws) (System s' (ScanFor rest) ws)
  | step_scan_test s s' s'' file rest tracked ws :
      scan_blocked self file s = (Ok false, s') ->
      append_test (Path.join (source_dir self) file) s' = (Ok tracked, s'') ->
      step self (System s (ScanFor (file :: rest)) ws)
        (System s''
           (if tracked then ScanFor rest
            else ScanChecked (Path.join (source_dir self) file) rest) ws)
  | step_scan_push s s' p rest pushed ws :
      append_push p s = (Ok pushed, s') ->
      step self (System s (ScanChecked p rest) ws)
        (System s' (if pushed then ScanPushed p rest else ScanFor rest) ws)
  | step_scan_record s s' p rest ws :
      append_record p s = (Ok tt, s') ->
      step self (System s (ScanPushed p rest) ws) (System s' (ScanFor rest) ws)
  | step_work_enter s sc ws i :
      ws !! i = Some WorkTop ->
      run s = true ->
      step self (System s sc ws) (System s sc (<[i := WorkReady]> ws))
  | step_work_take s s' sc ws i fp :
      ws !! i = Some WorkReady ->
      work_take s = (Ok fp, s') ->
      step self (System s sc ws) (System s' sc (<[i := after_take fp]> ws))
  | step_work_exit s sc ws i :
      ws !! i = Some WorkTop ->
      run s = false ->
      step self (System s sc ws) (System s sc (<[i := WorkEnded]> ws))
  | step_work_process s s' sc ws i p w r :
      ws !! i = Some (WorkHolding p) ->
      _process_file self w p s = (r, s') ->
      step self (System s sc ws) (System s' sc (<[i := WorkProcessed p r]> ws))
  | step_work_release s s' sc ws i p r res :
      ws !! i = Some (WorkProcessed p r) ->
      work_release self p r s = (res, s') ->
      step self (System s sc ws)
        (System s' sc (<[i := match res with Ok _ => WorkTop | Raise _ => WorkEnded end]> ws))
  | step_world s sc ws fs' :                      (* files come, go and change *)
      step self (System s sc ws) (System (set_fs fs' s) sc ws)
  | step_stop s sc ws :                           (* [stop] lowers the flag *)
      step self (System s sc ws) (System (set_run false s) sc ws).

(** The path a worker has in hand, if any. *)
Definition holds (wpc : worker_pc) : option string :=
  match wpc with
  | WorkHolding p | WorkProcessed p _ => Some p
  | _ => None
  end.

(** The path the scanner has pushed and not yet recorded, if any. *)
Definition pushed_path (sc : scanner_pc) : option string :=
  match sc with
  | ScanPushed p _ => Some p
  | _ => None
  end.

(** The path the scanner is in the middle of appending, if any. *)
Definition scanning (sc : scanner_pc) : option string :=
  match sc with
  | ScanChecked p _ | ScanPushed p _ => Some p
  | _ => None
  end.

(** ** Reading the event log *)

Fixpoint count (f : event -> bool) (l : list event) : nat :=
  match l with
  | [] => 0
  | e :: l' => (if f e then 1 else 0) + count f l'
  end.

Definition adds (id : nat) (e : event) : bool :=
  match e with EvAddTask j _ _ => Nat.eqb j id | _ => false end.

Definition removes (id : nat) (e : event) : bool :=
  match e with EvRemoveTask j => Nat.eqb j id | _ => false end.

(** The bytes reported to progress indicator [id]. *)
Fixpoint advanced (id : nat) (l : list event) : nat :=
  match l with
  | [] => 0
  | EvUpdate j n :: l' => (if Nat.eqb j id then n else 0) + advanced id l'
  | _ :: l' => advanced id l'
  end.

(** Events of a transfer: the connection and the progress of a running task. *)
Definition transfer_event (e : event) : bool :=
  match e with
  | EvRename _ _ | EvRemove _ | EvAddTask _ _ _ | EvRemoveTask _ | EvSleep _ => false
  | _ => true
  end.

(** Events that change the local file system. *)
Definition mutation (e : event) : bool :=
  match e with
  | EvRename _ _ | EvRemove _ => true
  | _ => false
  end.

Definition completes (cmd : string) (e : event) : bool :=
  match e with EvStorComplete c => String.eqb c cmd | _ => false end.


(** In a log (most recent first), every change of the file system comes
    after the completion of the transfer [cmd]. *)
Fixpoint guarded (cmd : string) (l : list event) : bool :=
  match l with
  | [] => true
  | e :: older =>
      (if mutation e then existsb (completes cmd) older else true) && guarded cmd older
  end.


(** ** What holds of every reachable state of the threads *)

(** The paths the workers have in hand. *)
Definition held (ws : list worker_pc) : list string := omap holds ws.

Record inv (sys : system) : Prop := Inv {
  inv_files : NoDup (files (shared sys));
  inv_queue : NoDup (queue (shared sys));
  inv_held : NoDup (held (pool sys));
  inv_bound : length (queue (shared sys)) <= maxsize;
  inv_apart : forall q, q ∈ queue (shared sys) -> q ∉ held (pool sys);
  inv_tracked : forall q,
    (q ∈ queue (shared sys)) \/ (q ∈ held (pool sys)) ->
    (q ∈ files (shared sys)) \/ pushed_path (scanner sys) = Some q;
  inv_fresh : forall q, scanning (scanner sys) = Some q -> q ∉ files (shared sys)
}.

(** [p] is tracked and nobody is working on it or about to. *)
Definition parked (p : string) (sys : system) : Prop :=
  (p ∈ files (shared sys)) /\ (p ∉ queue (shared sys)) /\ (p ∉ held (pool sys))
  /\ scanning (scanner sys) <> Some p.

(** [p] will never be worked on again: it is parked, or the scanner has
    pushed it, a worker has taken and released it already, and the
    scanner's append is still to come. *)
Definition settled (p : string) (sys : system) : Prop :=
  parked p sys
  \/ (pushed_path (scanner sys) = Some p
      /\ (p ∉ queue (shared sys)) /\ (p ∉ held (pool sys))).

(** [p] is free to be found by the scanner again. *)
Definition released (p : string) (sys : system) : Prop :=
  (p ∉ files (shared sys)) /\ (p ∉ queue (shared sys)) /\ (p ∉ held (pool sys))
  /\ scanning (scanner sys) <> Some p.

(** ** A small world to run the program in *)

Definition demo_fs : gmap string node :=
  <["/src/a.txt" := File (replicate 10 x00)]>
    (<["/src/b.txt" := File []]>
       (<["/src" := Dir]> (<["/dst" := Dir]> ∅))).
Definition demo_state : state := State demo_fs ∅ 0 [] 0 [] true [].
Definition plain : AutoUploadModule := init "/src" "host" 3 "anonymous" "" false "" "/".
Definition remover : AutoUploadModule := init "/src" "host" 3 "anonymous" "" true "" "/".
Definition mover : AutoUploadModule := init "/src" "host" 3 "anonymous" "" false "/dst" "/".

(** An uploader whose remote directory is [/up]. *)
Definition lister : AutoUploadModule := init "/src" "host" 3 "anonymous" "" false "" "/up".

(** After one pass of the scanner over [demo_fs]. *)
Definition demo_scanned : state :=
  State demo_fs ∅ 0 ["/src/a.txt"; "/src/b.txt"] 2 ["/src/a.txt"; "/src/b.txt"] true
    [EvSleep 1].

(** The scanner has put [/src/a.txt] and has not appended it yet. *)
Definition demo_pushed : system :=
  System (State demo_fs ∅ 0 ["/src/a.txt"] 1 [] true [EvSleep 1])
    (ScanPushed "/src/a.txt" ["b.txt"])
    [WorkTop; WorkTop; WorkTop].

(** Fifteen paths waiting: the queue is full. *)
Definition demo_backlog : list string :=
  map (fun c => "/src/" ++ String c "")
    ["a"; "b"; "c"; "d"; "e"; "f"; "g"; "h"; "i"; "j"; "k"; "l"; "m"; "n"; "o"]%char.

Definition demo_full : state :=
  State demo_fs ∅ 0 demo_backlog 15 demo_backlog true [].

(** Both files are queued and recorded, worker 0 has taken [/src/a.txt],
    and worker 1 has taken the empty [/src/b.txt] and skipped it. *)
Definition demo_skipped : system :=
  System (State demo_fs ∅ 0 [] 2 ["/src/a.txt"; "/src/b.txt"] true
            [EvPrint Stderr (MsgZeroSize "b.txt"); EvSleep 1])
    (ScanFor [])
    [WorkHolding "/src/a.txt"; WorkProcessed "/src/b.txt" (Ok false); WorkTop].

(** Worker 1 has taken the empty [/src/b.txt] between the scanner's [put]
    and [append], skipped it and let go of it; the [append] came last. *)
Definition demo_stranded : system :=
  System (State demo_fs ∅ 0 [] 1 ["/src/a.txt"; "/src/b.txt"] true
            [EvPrint Stderr (MsgZeroSize "b.txt"); EvSleep 1])
    (ScanFor [])
    [WorkHolding "/src/a.txt"; WorkTop; WorkTop].

(** The world in which the file goes between [isfile] and [getsize]. *)
Definition vanishing : env :=
  Env (Some FileNotFoundError) None None None None None None None None None None.

(** Worker 0 has taken [/src/a.txt]; the file was removed while the worker
    was between [isfile] and [getsize], so [getsize] has failed; the worker
    has reported the error and gone back to the head of its loop. *)
Definition demo_vanished : system :=
  System (State (delete "/src/a.txt" demo_fs) ∅ 0 [] 0 ["/src/a.txt"] true
            [EvPrint Stderr (MsgFileError "a.txt" FileNotFoundError); EvSleep 1])
    (ScanFor ["b.txt"])
    [WorkTop; WorkTop; WorkTop].

(** ** More readings of the event log *)


(** Events of the data connection of one [storbinary]. *)
Definition stream_event (e : event) : bool :=
  match e with
  | EvStor _ | EvSend _ | EvUpdate _ _ | EvStorComplete _ => true
  | _ => false
  end.

(** The bytes sent so far, in the order they went out (the log has the most
    recent event first). *)
Fixpoint sent (l : list event) : list byte :=
  match l with
  | [] => []
  | EvSend block :: l' => (sent l' ++ block)%list
  | _ :: l' => sent l'
  end.

(** What the local file system is after a file has been processed with
    result [b]: moved when a move directory is configured, else deleted when
    delete is, else left alone; untouched when the processing failed. *)
Definition after_post_action (self : AutoUploadModule) (p : string) (b : bool)
    (fs0 : gmap string node) : gmap string node :=
  match b, fs0 !! p with
  | true, Some n =>
      if truthy (mv self) then <[Path.join (mv self) (Path.basename p) := n]> (delete p fs0)
      else if rm self then delete p fs0
      else fs0
  | _, _ => fs0
  end.

(** The source directory as [main] resolves it. *)
Definition resolved (abspath : string -> string) (p : string) : string :=
  if negb (Path.isabs p) then abspath p else p.

(** The queue's count of unfinished tasks covers what is queued and what
    the workers have in hand. *)
Definition acct (sys : system) : Prop :=
  length (queue (shared sys)) + length (held (pool sys)) <= unfinished (shared sys).



(** The workers that have passed the test of the flag and are about to
    take a path. *)
Definition is_ready (wpc : worker_pc) : bool :=
  match wpc with WorkReady => true | _ => false end.

Definition ready (ws : list worker_pc) : nat :=
  length (filter (fun wpc => is_ready wpc = true) ws).

(** * Proofs

    ** Tactics: running the monad symbolically *)

Ltac run :=
  unfold bind, ret, raise, try_except, try_finally, fault, print, sleep, emit, modify, get in *;
  simpl in *.

Ltac flat :=
  unfold set_log, set_tasks, set_fs, set_queue, set_files, set_unfinished, set_run,
    set_next_task in *;
  simpl in *.

Ltac innermost_match :=
  match goal with
  | |- context [match ?x with _ => _ end] =>
      lazymatch x with
      | context [match _ with _ => _ end] => fail
      | _ => first [ rewrite_known x | destruct x eqn:? ]
      end
  end
with rewrite_known x :=
  match goal with
  | H : x = _ |- _ => rewrite H
  end.

Lemma ext_nil (l : list event) : l = ([] ++ l)%list.
Proof. reflexivity. Qed.
Lemma ext_cons (e : event) (l l' evs : list event) :
  l' = (evs ++ l)%list -> e :: l' = ((e :: evs) ++ l)%list.
Proof. intros ->. reflexivity. Qed.
Lemma ext_app (l l' x evs : list event) :
  l' = (evs ++ l)%list -> (x ++ l')%list = ((x ++ evs) ++ l)%list.
Proof. intros ->. by rewrite app_assoc. Qed.
Ltac ext_solve := repeat first [ apply ext_nil | apply ext_cons | apply ext_app ].

Lemma spec_intro {A} (r : result A) t' evs l s :
  l = (evs ++ log s)%list ->
  (r, State (fs s) t' (next_task s) (queue s) (unfinished s) (files s) (run s) l)
  = (r, set_log (evs ++ log s)%list (set_tasks t' s)).
Proof. intros ->. reflexivity. Qed.

Lemma leaf_intro {A} (r : result A) F T N q u f rn L evs l0 :
  L = (evs ++ l0)%list ->
  (r, State F T N q u f rn L) = (r, State F T N q u f rn (evs ++ l0)%list).
Proof. intros ->. reflexivity. Qed.

Lemma handle_eq id buf s :
  handle (Tracker id) buf s =
  match tasks s !! id with
  | None => (Raise KeyError, s)
  | Some t => (Ok tt, set_log (EvUpdate id 1024 :: log s)
                 (set_tasks (<[id := Task (description t) (total t) (completed t + 1024) (started t)]> (tasks s)) s))
  end.
Proof. unfold handle, Progress.update. simpl. destruct (tasks s !! id); reflexivity. Qed.

Lemma dom_insert_present (m : gmap nat task) i x t :
  m !! i = Some t -> dom (<[i := x]> m) = dom m.
Proof. intros H. apply dom_insert_lookup_L. by rewrite H. Qed.

Lemma dom_lookup_absurd (m m' : gmap nat task) i x :
  dom m' = dom (<[i := x]> m) -> m' !! i = None -> False.
Proof.
  intros Hd Hn. apply not_elem_of_dom in Hn. apply Hn. rewrite Hd.
  apply elem_of_dom. rewrite lookup_insert_eq. eauto.
Qed.

Lemma stor_loop_spec id fuel : forall f data s,
  exists r t' evs,
    FTP.stor_loop fuel f 1024 (handle (Tracker id)) data s
      = (r, set_log (evs ++ log s)%list (set_tasks t' s))
    /\ dom t' = dom (tasks s)
    /\ Forall (fun e => transfer_event e = true) evs
    /\ existsb (fun e => match e with EvStorComplete _ => true | _ => false end) evs = false.
Proof.
  induction fuel as [|fuel IH]; intros f data s; simpl.
  - exists (Ok f), (tasks s), []. by destruct s.
  - destruct (take 1024 data) as [|b buf] eqn:Hb.
    { exists (Ok f), (tasks s), []. by destruct s. }
    unfold FTP.sendall.
    destruct f as [[[|k] e]|];
      [ exists (Raise e), (tasks s), []; by destruct s | | ];
      ( unfold bind, emit, modify; simpl; rewrite handle_eq; simpl;
        destruct (tasks s !! id) as [t|] eqn:Ht;
        [ match goal with |- context [FTP.stor_loop fuel ?f' _ _ _ ?s'] =>
            destruct (IH f' (drop 1024 data) s') as (r & t' & evs & -> & Hd & Hev & Hc) end;
          exists r, t', (evs ++ [EvUpdate id 1024; EvSend (b :: buf)])%list;
          split; [ flat; by rewrite <- app_assoc | ];
          split; [ rewrite Hd; simpl; by eapply dom_insert_present | ];
          split; [ apply Forall_app_2; [ exact Hev | by repeat constructor ]
                 | rewrite existsb_app, Hc; reflexivity ]
        | exists (Raise KeyError), (tasks s), [EvSend (b :: buf)];
          destruct s; repeat split; by repeat constructor ] ).
Qed.

#[local] Arguments FTP.stor_loop : simpl never.

Lemma storbinary_spec w cmd fp id s :
  exists r t' evs,
    FTP.storbinary w cmd fp 1024 (handle (Tracker id)) s
      = (r, set_log (evs ++ log s)%list (set_tasks t' s))
    /\ dom t' = dom (tasks s)
    /\ Forall (fun e => transfer_event e = true) evs
    /\ (r = Ok tt <-> existsb (completes cmd) evs = true).
Proof.
  unfold FTP.storbinary, bind, emit, modify. simpl.
  match goal with |- context [FTP.stor_loop ?n ?f _ _ ?d ?s'] =>
    destruct (stor_loop_spec id n f d s') as (r & t' & evs & -> & Hd & Hev & Hc) end.
  assert (Hno : existsb (completes cmd) evs = false).
  { clear -Hc. induction evs as [|e evs IH]; [done|]. simpl in *.
    apply orb_false_iff in Hc as [He Hc]. rewrite (IH Hc). by destruct e. }
  destruct r as [[[k e]|]|e]; unfold raise; simpl.
  - exists (Raise e), t', (evs ++ [EvStor cmd])%list.
    split; [flat; by rewrite <- app_assoc|]. split; [done|].
    split; [apply Forall_app_2; [done | by repeat constructor]|].
    rewrite existsb_app, Hno. simpl. split; congruence.
  - exists (Ok tt), t', (EvStorComplete cmd :: evs ++ [EvStor cmd])%list.
    split; [flat; by rewrite <- app_assoc|]. split; [done|].
    split; [constructor; [done|]; apply Forall_app_2; [done | by repeat constructor]|].
    simpl. rewrite String.eqb_refl. done.
  - exists (Raise e), t', (evs ++ [EvStor cmd])%list.
    split; [flat; by rewrite <- app_assoc|]. split; [done|].
    split; [apply Forall_app_2; [done | by repeat constructor]|].
    rewrite existsb_app, Hno. simpl. split; congruence.
Qed.

#[local] Arguments FTP.storbinary : simpl never.

Ltac use_storbinary :=
  idtac; match goal with
  | |- context [FTP.storbinary ?w ?cmd ?fp 1024 (handle (Tracker ?id)) ?s'] =>
      let H := fresh "Hstor" in
      destruct (storbinary_spec w cmd fp id s') as (? & ? & ? & H & ? & ? & ?);
      rewrite H; clear H
  end.

Ltac crunch_with tac := repeat (run; flat; try first [ tac | innermost_match ]).

Ltac no_unit := repeat match goal with a : () |- _ => destruct a end.

Lemma upload_spec self w p name id s :
  exists r t' evs,
    _upload_file self w p name id s = (r, set_log (evs ++ log s)%list (set_tasks t' s))
    /\ dom t' = dom (tasks s)
    /\ Forall (fun e => transfer_event e = true) evs
    /\ (r = Ok true <->
        existsb (completes ("STOR " ++ name)) evs = true
        /\ quit_fault w = None /\ bye_fault w = None).
Proof.
  unfold _upload_file, FTP.open, FTP.cwd, FTP.quit, FTP.set_encoding, Progress.refresh, open_rb,
    Progress.start_task.
  crunch_with use_storbinary.
  all: do 3 eexists; (split; [eapply spec_intro; ext_solve|]).
  all: split; [ simpl; try congruence; try (etrans; [eassumption|]; simpl; by eapply dom_insert_present) | ].
  all: split; [ repeat first [ assumption | apply Forall_app_2 | constructor ] | ].
  all: simpl; rewrite ?existsb_app; simpl; rewrite ?orb_false_r.
  all: no_unit; intuition congruence.
Qed.

#[local] Arguments _upload_file : simpl never.

Ltac use_upload :=
  idtac; match goal with
  | |- context [_upload_file ?self ?w ?p ?name ?id ?s'] =>
      let H := fresh "Hup" in
      destruct (upload_spec self w p name id s') as (? & ? & ? & H & ? & ? & ?);
      rewrite H; clear H
  end.

Lemma count_adds_transfer x l id :
  Forall (fun e => transfer_event e = true) x ->
  count (adds id) (x ++ l) = count (adds id) l.
Proof. induction 1 as [|e x' He _ IH]; [done|]. simpl. rewrite IH. destruct e; simpl in *; congruence. Qed.

Lemma count_removes_transfer x l id :
  Forall (fun e => transfer_event e = true) x ->
  count (removes id) (x ++ l) = count (removes id) l.
Proof. induction 1 as [|e x' He _ IH]; [done|]. simpl. rewrite IH. destruct e; simpl in *; congruence. Qed.

Lemma mutation_transfer x l :
  Forall (fun e => transfer_event e = true) x ->
  existsb mutation (x ++ l) = existsb mutation l.
Proof. induction 1 as [|e x' He _ IH]; [done|]. simpl. rewrite IH. destruct e; simpl in *; congruence. Qed.

Lemma guarded_transfer cmd x l :
  Forall (fun e => transfer_event e = true) x ->
  guarded cmd (x ++ l) = guarded cmd l.
Proof. induction 1 as [|e x' He _ IH]; [done|]. simpl. rewrite IH. destruct e; simpl in *; congruence. Qed.

Ltac absorb :=
  repeat match goal with
  | H : Forall (fun e => transfer_event e = true) ?x |- _ =>
      first [ rewrite (count_adds_transfer x _ _ H) | rewrite (count_removes_transfer x _ _ H)
            | rewrite (mutation_transfer x _ H) | rewrite (guarded_transfer _ x _ H) ]
  end.

Lemma process_file_spec self w p s :
  exists r fs' t' n' evs,
    _process_file self w p s
      = (r, State fs' t' n' (queue s) (unfinished s) (files s) (run s) (evs ++ log s)%list)
    /\ guarded ("STOR " ++ Path.basename p) evs = true
    /\ (existsb mutation evs = false -> fs' = fs s)
    /\ match r with
       | Raise e =>
           getsize_fault w = Some e /\ isfile_in (fs s) p = true
           /\ fs' = fs s /\ t' = tasks s /\ n' = next_task s /\ evs = []
       | Ok b =>
           match fs s !! p with
           | Some (File (_ :: _)) =>
               count (adds (next_task s)) evs = 1
               /\ count (removes (next_task s)) evs
                  = (if (negb b || truthy (mv self) || rm self)%bool then 1 else 0)
               /\ (t' !! next_task s = None <-> (negb b || truthy (mv self) || rm self)%bool = true)
           | _ => b = false /\ fs' = fs s /\ t' = tasks s /\ n' = next_task s
                  /\ exists m, evs = [EvPrint Stderr m]
           end
       end.
Proof.
  destruct s as [F T N q u f rn L].
  unfold _process_file, _move_file, _delete_file, os_isfile, os_getsize, isfile_in,
    Progress.add_task, Progress.remove_task, os_rename, os_remove.
  crunch_with use_upload.
  all: try congruence.
  all: try solve [exfalso; eauto using dom_lookup_absurd].
  all: try solve [exfalso; match goal with
         | H : dom ?m' = dom _, H1 : ?m' !! ?i = None |- _ =>
             apply not_elem_of_dom in H1; apply H1; rewrite H; simpl;
             apply elem_of_dom; rewrite lookup_insert_eq; eauto
         end].
  all: eexists _, _, _, _, _; (split; [eapply leaf_intro; ext_solve|]).
  all: simpl; absorb; simpl.
  all: rewrite ?Nat.eqb_refl, ?existsb_app, ?lookup_delete_eq; simpl.
  all: repeat match goal with
         | H : _ = _ <-> existsb _ _ = true /\ _ |- _ =>
             first [ destruct (proj1 H eq_refl) as (-> & _ & _); clear H | clear H ]
         end.
  all: simpl; repeat split; try done; eauto.
  intros Hn. exfalso. eapply dom_lookup_absurd; eauto.
Qed.

(** ** Processing one file *)

Lemma guarded_needs_upload cmd evs :
  guarded cmd evs = true ->
  existsb (completes cmd) evs = false ->
  existsb mutation evs = false.
Proof.
  induction evs as [|e evs IH]; [done|]. simpl.
  intros [Hm Hg]%andb_true_iff [He Hc]%orb_false_iff.
  rewrite (IH Hg Hc), orb_false_r.
  destruct (mutation e); [congruence | done].
Qed.

Lemma append_file_eq p s :
  _append_file p s =
  if bool_decide (p ∈ files s) then (Ok tt, s)
  else if negb (isfile_in (fs s) p) then (Ok tt, s)
  else if Nat.leb maxsize (length (queue s)) then (Ok tt, set_log (EvSleep 5 :: log s) s)
  else (Ok tt, set_files (files s ++ [p])
                 (set_unfinished (S (unfinished s)) (set_queue (queue s ++ [p]) s))).
Proof.
  unfold _append_file, os_isfile, Queue.put_nowait, files_append. run.
  destruct (bool_decide (p ∈ files s)); [done|].
  destruct (isfile_in (fs s) p); [|done]. simpl.
  destruct (Nat.leb maxsize (length (queue s))) eqn:Hfull;
    unfold maxsize in *; simpl in *; rewrite Hfull; done.
Qed.

Lemma process_zero_byte self w p s :
  fs s !! p = Some (File []) ->
  _process_file self w p s
  = match getsize_fault w with
    | None => (Ok false, set_log (EvPrint Stderr (MsgZeroSize (Path.basename p)) :: log s) s)
    | Some e => (Raise e, s)
    end.
Proof.
  intros Hp. unfold _process_file, os_isfile, os_getsize, isfile_in. run.
  rewrite Hp. simpl. destruct (getsize_fault w); simpl; [done|]. rewrite Hp. done.
Qed.

(** ** The list of tracked paths *)

Lemma truthy_true (x : string) : truthy x = true <-> x <> "".
Proof.
  unfold truthy. destruct (String.eqb_spec x ""); simpl; split; try done; congruence.
Qed.

Lemma truthy_false (x : string) : truthy x = false <-> x = "".
Proof.
  unfold truthy. destruct (String.eqb_spec x ""); simpl; split; try done; congruence.
Qed.

Lemma remove_first_None p l : remove_first p l = None <-> p ∉ l.
Proof.
  induction l as [|y l IH]; simpl.
  - split; [intros _; apply not_elem_of_nil | done].
  - destruct (String.eqb_spec p y) as [->|Hne].
    + split; [done | intros H; exfalso; apply H; left].
    + destruct (remove_first p l) as [r|].
      * split; [done|]. intros H. exfalso. apply H. right.
        destruct (decide (p ∈ l)) as [|Hn]; [done|]. by apply IH in Hn.
      * split; [|done]. intros _ [?|?]%elem_of_cons; [done|]. by apply (proj1 IH).
Qed.

Lemma remove_first_Some p l r :
  remove_first p l = Some r ->
  p ∈ l /\ (forall q, q ∈ r -> q ∈ l) /\ (forall q, q ∈ l -> q <> p -> q ∈ r)
  /\ (NoDup l -> NoDup r /\ p ∉ r).
Proof.
  revert r. induction l as [|y l IH]; simpl; [done|]. intros r.
  destruct (String.eqb_spec p y) as [->|Hne].
  - intros [= ->]. split; [left|]. split; [by right|].
    split; [intros q [?|?]%elem_of_cons; done|].
    intros [? ?]%NoDup_cons. done.
  - destruct (remove_first p l) as [r'|]; [|done]. intros [= <-].
    destruct (IH r' eq_refl) as (Hin & Hsub & Hkeep & Hnd).
    split; [by right|].
    split; [intros q [->|?]%elem_of_cons; [left | right; auto]|].
    split; [intros q [->|?]%elem_of_cons ?; [left | right; auto]|].
    intros [Hy Hl]%NoDup_cons. destruct (Hnd Hl) as [Hr Hp].
    split.
    + apply NoDup_cons. split; [|done]. intros ?. apply Hy. auto.
    + intros [?|?]%elem_of_cons; done.
Qed.


(** ** The worker *)

#[local] Arguments _process_file : simpl never.

Lemma worker_round_eq self w p q s :
  queue s = p :: q -> truthy p = true ->
  worker_round self w s =
  (let (r, s1) := _process_file self w p (set_queue q s) in work_release self p r s1).
Proof.
  intros Hq Hp. unfold worker_round, work_release, Queue.get_nowait. run.
  rewrite Hq. simpl. rewrite Hp.
  destruct (_process_file self w p (set_queue q s)) as [[b|e] s1]; reflexivity.
Qed.

Lemma worker_round_cut self w s :
  worker_round self w s =
  (fp <- work_take ;;
   match fp with
   | Some p =>
       if truthy p then
         fun s1 => let (r, s2) := _process_file self w p s1 in work_release self p r s2
       else ret tt
   | None => ret tt
   end) s.
Proof.
  unfold worker_round, work_take, work_release, Queue.get_nowait. run.
  destruct (queue s) as [|p q]; [done|]. simpl.
  destruct (truthy p); [|done].
  destruct (_process_file self w p (set_queue q s)) as [[b|e] s1]; reflexivity.
Qed.

Lemma worker_round_idle self w s :
  queue s = [] -> worker_round self w s = (Ok tt, set_log (EvSleep 1 :: log s) s).
Proof.
  intros Hq. unfold worker_round, Queue.get_nowait. run. by rewrite Hq.
Qed.

Lemma work_release_spec self p r s :
  exists res s',
    work_release self p r s = (res, s')
    /\ queue s' = queue s /\ fs s' = fs s /\ tasks s' = tasks s
    /\ files s' = match r with
                  | Ok _ => if (rm self || truthy (mv self))%bool
                            then default (files s) (remove_first p (files s))
                            else files s
                  | Raise _ => files s
                  end
    /\ (forall b, r = Ok b -> log s' = log s).
Proof.
  unfold work_release, files_remove, Queue.task_done. run.
  destruct r as [b|e]; simpl.
  - destruct (rm self || truthy (mv self))%bool; simpl.
    + destruct (remove_first p (files s)) as [l|]; simpl;
        destruct (unfinished s); simpl; eexists _, _; repeat split; done.
    + destruct (unfinished s); simpl; eexists _, _; repeat split; done.
  - destruct e; simpl; destruct (unfinished s); simpl; eexists _, _; repeat split; done.
Qed.

Lemma process_file_frame self w p s r s' :
  _process_file self w p s = (r, s') ->
  queue s' = queue s /\ files s' = files s /\ unfinished s' = unfinished s /\ run s' = run s
  /\ match r with
     | Ok _ => True
     | Raise e => getsize_fault w = Some e /\ isfile_in (fs s) p = true /\ s' = s
     end.
Proof.
  destruct (process_file_spec self w p s) as (r0 & fs' & t' & n' & evs & Heq & _ & _ & H).
  rewrite Heq. intros [= <- <-]. simpl. repeat split; try done.
  destruct r0 as [b|e]; [done|].
  destruct H as (? & ? & -> & -> & -> & ->). by destruct s.
Qed.

(** ** The scanner *)

Lemma append_file_total p s : exists s', _append_file p s = (Ok tt, s').
Proof.
  rewrite append_file_eq. repeat case_match; eauto.
Qed.

Lemma append_file_full p s :
  maxsize <= length (queue s) -> p ∉ files s -> isfile_in (fs s) p = true ->
  _append_file p s = (Ok tt, set_log (EvSleep 5 :: log s) s).
Proof.
  intros Hfull Hp Hf. rewrite append_file_eq.
  rewrite bool_decide_eq_false_2 by done. rewrite Hf. cbn [negb].
  destruct (Nat.leb maxsize (length (queue s))) eqn:E; [done|].
  apply Nat.leb_gt in E. lia.
Qed.

Lemma append_file_tracked p s : p ∈ files s -> _append_file p s = (Ok tt, s).
Proof. intros Hp. rewrite append_file_eq. by rewrite bool_decide_eq_true_2. Qed.

Lemma append_file_enqueues p s :
  p ∉ files s -> isfile_in (fs s) p = true -> length (queue s) < maxsize ->
  _append_file p s
  = (Ok tt, set_files (files s ++ [p])
              (set_unfinished (S (unfinished s)) (set_queue (queue s ++ [p]) s))).
Proof.
  intros Hp Hf Hq. rewrite append_file_eq.
  rewrite bool_decide_eq_false_2 by done. rewrite Hf. cbn [negb].
  destruct (Nat.leb maxsize (length (queue s))) eqn:E; [|done].
  apply Nat.leb_le in E. lia.
Qed.

Lemma for_each_total {A} (body : A -> M unit) (l : list A) :
  (forall x s, exists s', body x s = (Ok tt, s')) ->
  forall s, exists s', for_each l body s = (Ok tt, s').
Proof.
  intros Hb. induction l as [|x l IH]; intros s; simpl.
  - by eexists.
  - unfold bind. destruct (Hb x s) as [s1 ->]. apply IH.
Qed.

Lemma scanner_round_total self s :
  isdir_in (fs s) (source_dir self) = true ->
  exists s', scanner_round self s = (Ok tt, s').
Proof.
  intros Hd. unfold scanner_round, os_listdir. run. rewrite Hd.
  apply for_each_total. intros file s0. unfold os_isfile. run.
  destruct (truthy (mv self)); simpl.
  - destruct (isfile_in (fs s0) (Path.join (mv self) file)); simpl; [by eexists|].
    apply append_file_total.
  - apply append_file_total.
Qed.

(** ** A zero-byte file under move or delete: skipped and taken up again *)




(** ** The atomic actions and the shared state *)

Lemma scan_begin_effect self s r s' :
  scan_begin self s = (r, s') -> s' = set_log (EvSleep 1 :: log s) s.
Proof.
  unfold scan_begin, os_listdir. run.
  destruct (isdir_in (fs s) (source_dir self)); by intros [= _ <-].
Qed.

Lemma scan_blocked_effect self file s r s' :
  scan_blocked self file s = (r, s') -> queue s' = queue s /\ files s' = files s.
Proof.
  unfold scan_blocked, os_isfile. run.
  destruct (truthy (mv self)); simpl; [|by intros [= _ <-]].
  destruct (isfile_in (fs s) (Path.join (mv self) file)); by intros [= _ <-].
Qed.

Lemma append_test_effect p s tracked s' :
  append_test p s = (Ok tracked, s') -> s' = s /\ (tracked = false -> p ∉ files s).
Proof.
  unfold append_test. run. intros [= <- <-]. split; [done|].
  by intros ?%bool_decide_eq_false.
Qed.

Lemma put_nowait_eq p s :
  Queue.put_nowait maxsize p s =
  if Nat.leb maxsize (length (queue s)) then (Raise QueueFull, s)
  else (Ok tt, set_unfinished (S (unfinished s)) (set_queue (queue s ++ [p]) s)).
Proof. reflexivity. Qed.

#[local] Arguments Queue.put_nowait : simpl never.

Lemma append_push_effect p s pushed s' :
  append_push p s = (Ok pushed, s') ->
  files s' = files s
  /\ if pushed then queue s' = (queue s ++ [p])%list /\ length (queue s) < maxsize
     else queue s' = queue s.
Proof.
  unfold append_push, os_isfile. run.
  destruct (isfile_in (fs s) p); simpl; [|by intros [= <- <-]].
  rewrite put_nowait_eq.
  destruct (Nat.leb maxsize (length (queue s))) eqn:E; simpl; intros [= <- <-]; simpl; [done|].
  apply Nat.leb_gt in E. done.
Qed.

Lemma append_record_effect p s r s' :
  append_record p s = (r, s') -> s' = set_files (files s ++ [p]) s.
Proof. unfold append_record, files_append. run. by intros [= _ <-]. Qed.

Lemma work_take_effect s fp s' :
  work_take s = (Ok fp, s') ->
  files s' = files s
  /\ match fp with
     | Some p => queue s = p :: queue s'
     | None => queue s' = queue s
     end.
Proof.
  unfold work_take, Queue.get_nowait. run.
  destruct (queue s) as [|p q] eqn:Hq; simpl; intros [= <- <-]; simpl; done.
Qed.

Lemma append_file_cut p s :
  _append_file p s =
  (tracked <- append_test p ;;
   if tracked then ret tt else
   pushed <- append_push p ;;
   if pushed then append_record p else ret tt) s.
Proof.
  unfold _append_file, append_test, append_push, append_record, os_isfile, files_append.
  run.
  destruct (bool_decide (p ∈ files s)); [done|].
  destruct (isfile_in (fs s) p); [|done]. simpl.
  rewrite put_nowait_eq.
  destruct (Nat.leb maxsize (length (queue s))); done.
Qed.

Lemma scanner_round_cut self s :
  scanner_round self s =
  (found <- scan_begin self ;;
   for_each found (fun file =>
     blocked <- scan_blocked self file ;;
     if blocked then ret tt else _append_file (Path.join (source_dir self) file))) s.
Proof.
  unfold scanner_round, scan_begin, scan_blocked. run.
  destruct (os_listdir (source_dir self) (set_log (EvSleep 1 :: log s) s)) as [[l|e] s1]; done.
Qed.

(** ** The paths in the workers' hands *)

Lemma held_insert ws i old x :
  ws !! i = Some old ->
  exists a b,
    held ws = (a ++ from_option (fun p => [p]) [] (holds old) ++ b)%list
    /\ held (<[i := x]> ws) = (a ++ from_option (fun p => [p]) [] (holds x) ++ b)%list.
Proof.
  intros Hi. exists (held (take i ws)), (held (drop (S i) ws)). unfold held.
  split.
  - rewrite <- (take_drop_middle ws i old Hi) at 1.
    rewrite omap_app. simpl. by destruct (holds old).
  - rewrite insert_take_drop by (by eapply lookup_lt_Some).
    rewrite omap_app. simpl. by destruct (holds x).
Qed.

Lemma held_insert_same ws i old x :
  ws !! i = Some old -> holds x = holds old -> held (<[i := x]> ws) = held ws.
Proof.
  intros Hi Hx. destruct (held_insert ws i old x Hi) as (a & b & -> & ->). by rewrite Hx.
Qed.

Lemma held_insert_take ws i old x p :
  ws !! i = Some old -> holds old = None -> holds x = Some p ->
  held (<[i := x]> ws) ≡ₚ p :: held ws.
Proof.
  intros Hi Ho Hx. destruct (held_insert ws i old x Hi) as (a & b & -> & ->).
  rewrite Ho, Hx. simpl. by rewrite Permutation_middle.
Qed.

Lemma held_insert_drop ws i old x p :
  ws !! i = Some old -> holds old = Some p -> holds x = None ->
  held ws ≡ₚ p :: held (<[i := x]> ws).
Proof.
  intros Hi Ho Hx. destruct (held_insert ws i old x Hi) as (a & b & -> & ->).
  rewrite Ho, Hx. simpl. by rewrite Permutation_middle.
Qed.

Lemma held_boot self : held (map (fun _ => WorkTop) (workers self)) = [].
Proof. unfold held. induction (workers self); simpl; done. Qed.

Lemma held_lookup ws i w p : ws !! i = Some w -> holds w = Some p -> p ∈ held ws.
Proof.
  intros Hi Hw. unfold held. apply list_elem_of_omap. exists w. split; [|done].
  by eapply list_elem_of_lookup_2.
Qed.

(** ** The invariant *)

Lemma inv_boot self fs0 : inv (boot self fs0).
Proof.
  split; simpl; rewrite ?held_boot.
  - constructor.
  - constructor.
  - constructor.
  - unfold maxsize. lia.
  - intros q Hq. by apply elem_of_nil in Hq.
  - intros q [Hq|Hq]; by apply elem_of_nil in Hq.
  - done.
Qed.

Lemma inv_frame s sc ws s' sc' ws' :
  inv (System s sc ws) ->
  queue s' = queue s -> files s' = files s -> held ws' = held ws ->
  pushed_path sc' = pushed_path sc ->
  (forall q, scanning sc' = Some q -> q ∉ files s) ->
  inv (System s' sc' ws').
Proof.
  intros [Hf Hq Hh Hb Ha Ht Hn] Eq Ef Eh Ep Hs. simpl in *.
  split; simpl; rewrite ?Eq, ?Ef, ?Eh, ?Ep; done.
Qed.

Lemma inv_step self sys sys' : inv sys -> step self sys sys' -> inv sys'.
Proof.
  intros Hinv Hstep.
  destruct Hstep.
  - eapply inv_frame; eauto; done.
  - apply scan_begin_effect in H as ->. eapply inv_frame; eauto; done.
  - apply scan_begin_effect in H as ->. eapply inv_frame; eauto; done.
  - eapply inv_frame; eauto; done.
  - eapply inv_frame; eauto; done.
  - apply scan_blocked_effect in H as [? ?]. eapply inv_frame; eauto; done.
  - apply scan_blocked_effect in H as [Eq Ef].
    apply append_test_effect in H0 as [-> Hfresh].
    eapply inv_frame; eauto.
    + by destruct tracked.
    + destruct tracked; [done|]. simpl. intros q [= <-]. rewrite <- Ef. auto.
  - apply append_push_effect in H as [Ef Hq].
    destruct pushed; [|eapply inv_frame; eauto; done].
    destruct Hq as [Eq Hroom].
    destruct Hinv as [Hf Hqn Hh Hb Ha Ht Hn]. simpl in *.
    assert (Hp : p ∉ files s) by (by apply Hn).
    assert (Hpq : p ∉ queue s).
    { intros Hin. destruct (Ht p (or_introl Hin)) as [?|?]; done. }
    assert (Hph : p ∉ held ws).
    { intros Hin. destruct (Ht p (or_intror Hin)) as [?|?]; done. }
    split; simpl; rewrite ?Eq, ?Ef; try done.
    + apply NoDup_app. split; [done|]. split; [|apply NoDup_singleton].
      intros x Hx ->%list_elem_of_singleton. done.
    + rewrite length_app. simpl. lia.
    + intros q [Hin| ->%list_elem_of_singleton]%elem_of_app; auto.
    + intros q [[Hin| ->%list_elem_of_singleton]%elem_of_app|Hin]; auto.
      * destruct (Ht q (or_introl Hin)) as [?|?]; [auto|done].
      * destruct (Ht q (or_intror Hin)) as [?|?]; [auto|done].
  - apply append_record_effect in H as ->.
    destruct Hinv as [Hf Hqn Hh Hb Ha Ht Hn]. simpl in *.
    split; simpl; try done.
    + apply NoDup_app. split; [done|]. split; [|apply NoDup_singleton].
      intros x Hx Hx'%list_elem_of_singleton. subst x. by apply (Hn p).
    + intros q Hq. left. apply elem_of_app.
      destruct (Ht q Hq) as [?|[= ->]]; [by left | right; by apply list_elem_of_singleton].
  - eapply inv_frame;
      [exact Hinv | done | done | by eapply held_insert_same | done | apply Hinv].
  - apply work_take_effect in H0 as [Ef Hq].
    destruct Hinv as [Hf Hqn Hh Hb Ha Ht Hn]. simpl in *.
    destruct fp as [p|]; simpl.
    + assert (Hsub : forall q, q ∈ queue s' -> q ∈ queue s).
      { intros q Hin. rewrite Hq. by right. }
      rewrite Hq in Hqn. apply NoDup_cons in Hqn as [Hpq Hqn].
      assert (Hlen : length (queue s') <= maxsize) by (rewrite Hq in Hb; simpl in Hb; lia).
      destruct (truthy p).
      * pose proof (held_insert_take ws i WorkReady (WorkHolding p) p H eq_refl eq_refl) as Hperm.
        assert (Hpin : p ∈ queue s) by (rewrite Hq; left).
        split; simpl; rewrite ?Ef; try done.
        -- rewrite Hperm. apply NoDup_cons. split; [by apply Ha | done].
        -- intros q Hin. rewrite Hperm. intros [->|Hh']%elem_of_cons; [done|].
           by apply (Ha q (Hsub q Hin)).
        -- intros q [Hin|Hin]; [apply Ht; left; auto|].
           rewrite Hperm in Hin. apply elem_of_cons in Hin as [->|Hin]; apply Ht; auto.
      * pose proof (held_insert_same ws i WorkReady WorkTop H eq_refl) as Hsame.
        split; simpl; rewrite ?Ef, ?Hsame; try done.
        -- intros q Hin. apply Ha. auto.
        -- intros q [Hin|Hin]; apply Ht; auto.
    + eapply inv_frame; [split; simpl; eauto | ..]; try done.
      by eapply held_insert_same.
  - eapply inv_frame;
      [exact Hinv | done | done | by eapply held_insert_same | done | apply Hinv].
  - apply process_file_frame in H0 as (Eq & Ef & _).
    eapply inv_frame;
      [exact Hinv | done | done | by eapply held_insert_same | done | apply Hinv].
  - destruct (work_release_spec self p r s) as (res' & s1 & Heq & Eq & _ & _ & Ef & _).
    rewrite Heq in H0. injection H0 as <- <-.
    set (x := match res' with Ok _ => WorkTop | Raise _ => WorkEnded end).
    assert (Hx : holds x = None) by (unfold x; by destruct res').
    pose proof (held_insert_drop ws i (WorkProcessed p r) x p H eq_refl Hx) as Hperm.
    destruct Hinv as [Hf Hqn Hh Hb Ha Ht Hn]. simpl in *.
    rewrite Hperm in Hh. apply NoDup_cons in Hh as [Hph Hh].
    assert (Hsub : forall q, q ∈ held (<[i:=x]> ws) -> q ∈ held ws).
    { intros q Hin. rewrite Hperm. by right. }
    assert (Hpq : p ∉ queue s).
    { intros Hin. apply (Ha p Hin). rewrite Hperm. left. }
    assert (Hcase : files s1 = files s
                    \/ remove_first p (files s) = Some (files s1)).
    { rewrite Ef. destruct r; [|by left].
      destruct (rm self || truthy (mv self))%bool; [|by left].
      destruct (remove_first p (files s)); [by right | by left]. }
    destruct Hcase as [Ef'|Hrem].
    + split; simpl; rewrite ?Eq, ?Ef'; try done.
      * intros q Hin Hin'. by apply (Ha q Hin), Hsub.
      * intros q [Hin|Hin]; apply Ht; auto.
    + apply remove_first_Some in Hrem as (Hin & Hs1 & Hkeep & Hnd).
      destruct (Hnd Hf) as [Hnd1 _].
      split; simpl; rewrite ?Eq; try done.
      * intros q Hq Hq'. by apply (Ha q Hq), Hsub.
      * intros q Hq.
        assert (Hne : q <> p).
        { intros ->. destruct Hq as [?|?]; done. }
        destruct (Ht q) as [Hin'|?]; [destruct Hq; auto| |by right].
        left. by apply Hkeep.
      * intros q Hq Hin'. apply (Hn q Hq). auto.
  - eapply inv_frame; [exact Hinv | done | done | done | done | apply Hinv].
  - eapply inv_frame; [exact Hinv | done | done | done | done | apply Hinv].
Qed.

Lemma inv_reachable self sys sys' : inv sys -> rtc (step self) sys sys' -> inv sys'.
Proof. intros Hinv Hrtc. induction Hrtc; eauto using inv_step. Qed.

(** ** How one step changes the queue, the tracked paths and the hands *)

Lemma step_changes self sys sys' :
  step self sys sys' ->
  (forall q, q ∈ files (shared sys) ->
     (q ∈ files (shared sys'))
     \/ ((rm self || truthy (mv self))%bool = true /\ q ∈ held (pool sys)))
  /\ (forall q, q ∈ queue (shared sys') ->
        (q ∈ queue (shared sys)) \/ scanning (scanner sys) = Some q)
  /\ (forall q, q ∈ held (pool sys') ->
        (q ∈ held (pool sys)) \/ (q ∈ queue (shared sys)))
  /\ (forall q, scanning (scanner sys') = Some q ->
        scanning (scanner sys) = Some q \/ (q ∉ files (shared sys))).
Proof.
  intros Hstep. destruct Hstep; simpl.
  - repeat split; auto; done.
  - apply scan_begin_effect in H as ->. simpl. repeat split; auto; done.
  - apply scan_begin_effect in H as ->. simpl. repeat split; auto; done.
  - repeat split; auto; done.
  - repeat split; auto; done.
  - apply scan_blocked_effect in H as [-> ->]. repeat split; auto; done.
  - apply scan_blocked_effect in H as [Eq Ef].
    apply append_test_effect in H0 as [-> Hfresh]. rewrite Eq, Ef.
    repeat split; auto.
    destruct tracked; [done|]. simpl. intros q [= <-]. right. rewrite <- Ef. auto.
  - apply append_push_effect in H as [-> Hq].
    destruct pushed.
    + destruct Hq as [-> _]. repeat split; auto.
      intros q [?| ->%list_elem_of_singleton]%elem_of_app; auto.
    + rewrite Hq. repeat split; auto. done.
  - apply append_record_effect in H as ->. simpl. repeat split; auto; [|done].
    intros q Hq. left. apply elem_of_app. auto.
  - rewrite (held_insert_same ws i WorkTop WorkReady H eq_refl). repeat split; auto.
  - apply work_take_effect in H0 as [-> Hq].
    repeat split; auto.
    + intros q Hin. left. destruct fp; [rewrite Hq; by right | by rewrite <- Hq].
    + intros q Hin.
      destruct fp as [p|]; simpl in Hin;
        [destruct (truthy p)|];
        try (rewrite (held_insert_same ws i WorkReady WorkTop H eq_refl) in Hin; by left).
      rewrite (held_insert_take ws i WorkReady (WorkHolding p) p H eq_refl eq_refl) in Hin.
      apply elem_of_cons in Hin as [->|?]; [right; rewrite Hq; left | by left].
  - rewrite (held_insert_same ws i WorkTop WorkEnded H eq_refl). repeat split; auto.
  - apply process_file_frame in H0 as (-> & -> & _).
    rewrite (held_insert_same ws i (WorkHolding p) (WorkProcessed p r) H eq_refl).
    repeat split; auto.
  - destruct (work_release_spec self p r s) as (res' & s1 & Heq & Eq & _ & _ & Ef & _).
    rewrite Heq in H0. injection H0 as <- <-.
    set (x := match res' with Ok _ => WorkTop | Raise _ => WorkEnded end).
    assert (Hx : holds x = None) by (unfold x; by destruct res').
    pose proof (held_insert_drop ws i (WorkProcessed p r) x p H eq_refl Hx) as Hperm.
    rewrite Eq. repeat split; auto.
    + intros q Hin. rewrite Ef.
      destruct r; [|by left].
      destruct (rm self || truthy (mv self))%bool eqn:Hmode; [|by left].
      destruct (remove_first p (files s)) as [l|] eqn:Hrem; [|by left]. simpl.
      apply remove_first_Some in Hrem as (_ & _ & Hkeep & _).
      destruct (decide (q = p)) as [->|Hne]; [|left; auto].
      right. split; [done|]. rewrite Hperm. left.
    + intros q Hin. left. rewrite Hperm. by right.
  - repeat split; auto.
  - repeat split; auto.
Qed.

Lemma files_stay_step self p sys sys' :
  rm self = false -> mv self = "" ->
  step self sys sys' -> p ∈ files (shared sys) -> p ∈ files (shared sys').
Proof.
  intros Hrm Hmv Hstep Hp.
  destruct (step_changes self sys sys' Hstep) as (Hf & _).
  destruct (Hf p Hp) as [?|[Hmode _]]; [done|].
  rewrite Hrm, Hmv in Hmode. done.
Qed.

Lemma files_stay self p sys sys' :
  rm self = false -> mv self = "" ->
  rtc (step self) sys sys' -> p ∈ files (shared sys) -> p ∈ files (shared sys').
Proof.
  intros Hrm Hmv Hrtc. induction Hrtc; eauto using files_stay_step.
Qed.

(** A path that is tracked and in nobody's hands stays so, whatever the
    configuration: only the worker that holds a path takes it off the list. *)
Lemma parked_step self p sys sys' :
  step self sys sys' -> parked p sys -> parked p sys'.
Proof.
  intros Hstep (Hf & Hq & Hh & Hs).
  destruct (step_changes self sys sys' Hstep) as (Cf & Cq & Ch & Cs).
  split; [destruct (Cf p Hf) as [?|[_ ?]]; done|].
  split; [intros Hin; destruct (Cq p Hin); done|].
  split; [intros Hin; destruct (Ch p Hin); done|].
  intros Hin. destruct (Cs p Hin); done.
Qed.

Lemma parked_forever self p sys sys' :
  rtc (step self) sys sys' -> parked p sys -> parked p sys'.
Proof. intros Hrtc. induction Hrtc; eauto using parked_step. Qed.

Lemma settled_step self p sys sys' :
  step self sys sys' -> settled p sys -> settled p sys'.
Proof.
  intros Hstep [Hpark|(Hsc & Hq & Hh)]; [left; by eapply parked_step|].
  destruct (step_changes self sys sys' Hstep) as (_ & _ & Ch & _).
  assert (Hh' : p ∉ held (pool sys')) by (intros Hin; destruct (Ch p Hin); done).
  destruct Hstep; simpl in *; try discriminate Hsc.
  - apply append_record_effect in H as ->. injection Hsc as ->.
    left. split; simpl; [apply elem_of_app; right; by apply list_elem_of_singleton|].
    done.
  - right; simpl. done.
  - right; simpl. apply work_take_effect in H0 as [_ Hqq].
    split; [done|]. split; [|done].
    intros Hin. apply Hq. destruct fp; [rewrite Hqq; by right | by rewrite <- Hqq].
  - right; simpl. done.
  - right; simpl. apply process_file_frame in H0 as (Eq & _). rewrite Eq. done.
  - right; simpl. destruct (work_release_spec self p0 r s) as (res' & s1 & Heq & Eq & _).
    rewrite Heq in H0. injection H0 as _ Hs1. subst s1. rewrite Eq. done.
  - right; simpl. done.
  - right; simpl. done.
Qed.

Lemma settled_forever self p sys sys' :
  rtc (step self) sys sys' -> settled p sys -> settled p sys'.
Proof. intros Hrtc. induction Hrtc; eauto using settled_step. Qed.


(** ** The atomic actions, in full *)

Lemma scan_blocked_state self file s r s' :
  scan_blocked self file s = (r, s') -> exists l, s' = set_log l s.
Proof.
  unfold scan_blocked, os_isfile. run.
  destruct (truthy (mv self)); simpl; [|intros [= _ <-]; exists (log s); by destruct s].
  destruct (isfile_in (fs s) (Path.join (mv self) file)); intros [= _ <-];
    [by eexists | exists (log s); by destruct s].
Qed.

Lemma append_push_state p s pushed s' :
  append_push p s = (Ok pushed, s') ->
  if pushed then s' = set_unfinished (S (unfinished s)) (set_queue (queue s ++ [p]) s)
  else exists l, s' = set_log l s.
Proof.
  unfold append_push, os_isfile. run.
  destruct (isfile_in (fs s) p); simpl;
    [|intros [= <- <-]; exists (log s); by destruct s].
  rewrite put_nowait_eq.
  destruct (Nat.leb maxsize (length (queue s))); simpl; intros [= <- <-]; [by eexists | done].
Qed.

Lemma work_take_state s fp s' :
  work_take s = (Ok fp, s') ->
  match fp with
  | Some p => exists q, queue s = p :: q /\ s' = set_queue q s
  | None => queue s = [] /\ s' = set_log (EvSleep 1 :: log s) s
  end.
Proof.
  unfold work_take, Queue.get_nowait. run.
  destruct (queue s) as [|p q] eqn:Hq; simpl; intros [= <- <-]; [done | by exists q].
Qed.

Lemma work_release_counts self p r s res s' :
  work_release self p r s = (res, s') ->
  queue s' = queue s /\ run s' = run s
  /\ match unfinished s with
     | 0 => res = Raise ValueError /\ unfinished s' = 0
     | S n => res = Ok tt /\ unfinished s' = n
     end.
Proof.
  unfold work_release, files_remove, Queue.task_done. run.
  destruct r as [b|e]; simpl.
  - destruct (rm self || truthy (mv self))%bool; simpl.
    + destruct (remove_first p (files s)) as [l|]; simpl;
        destruct (unfinished s) eqn:Hu; simpl; intros [= <- <-]; simpl; rewrite ?Hu; done.
    + destruct (unfinished s) eqn:Hu; simpl; intros [= <- <-]; simpl; rewrite ?Hu; done.
  - destruct e; simpl; destruct (unfinished s) eqn:Hu; simpl; intros [= <- <-]; simpl;
      rewrite ?Hu; done.
Qed.

(** ** The queue's count of unfinished tasks *)

Lemma acct_step self sys sys' :
  step self sys sys' ->
  (acct sys /\ forall i, pool sys !! i = Some WorkEnded -> run (shared sys) = false) ->
  acct sys' /\ forall i, pool sys' !! i = Some WorkEnded -> run (shared sys') = false.
Proof.
  unfold acct. intros Hstep [Hacct Hend]. destruct Hstep; simpl in *.
  - done.
  - apply scan_begin_effect in H as ->. done.
  - apply scan_begin_effect in H as ->. done.
  - done.
  - done.
  - apply scan_blocked_state in H as [l ->]. done.
  - apply scan_blocked_state in H as [l ->].
    apply append_test_effect in H0 as [-> _]. done.
  - apply append_push_state in H. destruct pushed.
    + subst s'. simpl. rewrite length_app. simpl. split; [lia | done].
    + destruct H as [l ->]. done.
  - apply append_record_effect in H as ->. done.
  - rewrite (held_insert_same ws i WorkTop WorkReady H eq_refl).
    split; [done|]. intros j Hj.
    apply list_lookup_insert_Some in Hj as [(_ & [=] & _)|[_ Hj]]. eauto.
  - apply work_take_state in H0.
    assert (Hkeep : forall x j, holds x <> None \/ x = WorkTop ->
              <[i:=x]> ws !! j = Some WorkEnded -> ws !! j = Some WorkEnded).
    { intros x j Hx Hj. apply list_lookup_insert_Some in Hj as [(_ & -> & _)|[_ Hj]]; [|done].
      destruct Hx as [Hx|Hx]; [exfalso; by apply Hx | discriminate Hx]. }
    destruct fp as [p|]; simpl.
    + destruct H0 as (q & Hq & ->). simpl. rewrite Hq in Hacct. simpl in Hacct.
      destruct (truthy p).
      * rewrite (held_insert_take ws i WorkReady (WorkHolding p) p H eq_refl eq_refl). simpl.
        split; [lia|]. intros j Hj. apply Hend with j. eapply Hkeep; [|done]. by left.
      * rewrite (held_insert_same ws i WorkReady WorkTop H eq_refl).
        split; [lia|]. intros j Hj. apply Hend with j. eapply Hkeep; [|done]. by right.
    + destruct H0 as [Hq ->]. simpl.
      rewrite (held_insert_same ws i WorkReady WorkTop H eq_refl).
      split; [lia|]. intros j Hj. apply Hend with j. eapply Hkeep; [|done]. by right.
  - rewrite (held_insert_same ws i WorkTop WorkEnded H eq_refl). done.
  - apply process_file_frame in H0 as (-> & _ & -> & -> & _).
    rewrite (held_insert_same ws i (WorkHolding p) (WorkProcessed p r) H eq_refl).
    split; [done|]. intros j Hj.
    apply list_lookup_insert_Some in Hj as [(_ & [=] & _)|[_ Hj]]. eauto.
  - apply work_release_counts in H0 as (-> & -> & Hu).
    pose proof (held_insert_drop ws i (WorkProcessed p r)
                  (match res with Ok _ => WorkTop | Raise _ => WorkEnded end) p H eq_refl) as Hperm.
    destruct (unfinished s) as [|n] eqn:Hun.
    + exfalso. rewrite Hperm in Hacct by (by destruct res). simpl in Hacct. lia.
    + destruct Hu as [-> ->]. rewrite (Hperm eq_refl) in Hacct. simpl in Hacct.
      split; [lia|]. intros j Hj.
      apply list_lookup_insert_Some in Hj as [(_ & [=] & _)|[_ Hj]]. eauto.
  - done.
  - done.
Qed.

Lemma boot_pool_top {A} (l : list A) i w :
  map (fun _ => WorkTop) l !! i = Some w -> w = WorkTop.
Proof.
  revert i. induction l as [|a l IH]; intros [|i] Hi; simpl in Hi; try done.
  - by injection Hi as <-.
  - by eapply IH.
Qed.

Lemma acct_reachable self sys sys' :
  (acct sys /\ forall i, pool sys !! i = Some WorkEnded -> run (shared sys) = false) ->
  rtc (step self) sys sys' ->
  acct sys' /\ forall i, pool sys' !! i = Some WorkEnded -> run (shared sys') = false.
Proof.
  intros Hinv Hrtc. induction Hrtc as [|x y z Hstep _ IH]; [done|].
  apply IH. by eapply acct_step.
Qed.


(** ** When a worker lets go of a path *)

Lemma reachable_inv self fs0 sys :
  rtc (step self) (boot self fs0) sys -> inv sys /\ acct sys.
Proof.
  intros Hreach. split.
  - by eapply inv_reachable; [apply inv_boot|].
  - eapply acct_reachable; [|exact Hreach].
    split; [unfold acct, boot; simpl; rewrite held_boot; simpl; lia|].
    intros i Hi. simpl in Hi. by apply boot_pool_top in Hi.
Qed.

(** The release returns, and the path it was about is then neither queued
    nor in any worker's hands. *)
Lemma release_step self s sc ws i p r :
  inv (System s sc ws) -> acct (System s sc ws) ->
  ws !! i = Some (WorkProcessed p r) ->
  exists s',
    work_release self p r s = (Ok tt, s')
    /\ step self (System s sc ws) (System s' sc (<[i := WorkTop]> ws))
    /\ queue s' = queue s /\ fs s' = fs s /\ tasks s' = tasks s
    /\ (forall b, r = Ok b -> log s' = log s)
    /\ files s' = match r with
                  | Ok _ => if (rm self || truthy (mv self))%bool
                            then default (files s) (remove_first p (files s))
                            else files s
                  | Raise _ => files s
                  end
    /\ (p ∉ queue s') /\ (p ∉ held (<[i := WorkTop]> ws)).
Proof.
  intros [Hf Hqn Hh Hb Ha Ht Hn] Hacct Hi. unfold acct in Hacct. simpl in *.
  pose proof (held_lookup ws i _ p Hi eq_refl) as Hheld.
  pose proof (held_insert_drop ws i (WorkProcessed p r) WorkTop p Hi eq_refl eq_refl) as Hperm.
  destruct (work_release self p r s) as [res s'] eqn:Hrel.
  pose proof (work_release_counts self p r s res s' Hrel) as (Eq & _ & Hu).
  destruct (work_release_spec self p r s) as (res' & s2 & Heq & _ & Efs & Et & Ef & El).
  rewrite Hrel in Heq. injection Heq as <- <-.
  assert (Hres : res = Ok tt).
  { destruct (unfinished s); [|by destruct Hu].
    rewrite Hperm in Hacct. simpl in Hacct. lia. }
  subst res. exists s'. split; [done|].
  split; [exact (step_work_release self s s' sc ws i p r (Ok tt) Hi Hrel)|].
  split; [done|]. split; [done|]. split; [done|]. split; [done|]. split; [done|].
  split.
  - rewrite Eq. intros Hin. by apply (Ha p Hin).
  - rewrite Hperm in Hh. by apply NoDup_cons in Hh as [? _].
Qed.

(** With move or delete, a path that was recorded is free again after the
    release. *)
Lemma release_frees self s sc ws i p b :
  inv (System s sc ws) -> acct (System s sc ws) ->
  ws !! i = Some (WorkProcessed p (Ok b)) ->
  (rm self || truthy (mv self))%bool = true -> p ∈ files s ->
  exists s',
    work_release self p (Ok b) s = (Ok tt, s')
    /\ released p (System s' sc (<[i := WorkTop]> ws))
    /\ forall q, q <> p -> (q ∈ files s' <-> q ∈ files s).
Proof.
  intros Hinv Hacct Hi Hmode Hin.
  destruct (release_step self s sc ws i p (Ok b) Hinv Hacct Hi)
    as (s' & Hrel & _ & _ & _ & _ & _ & Ef & Hq & Hh).
  exists s'. split; [done|]. rewrite Hmode in Ef.
  destruct (remove_first p (files s)) as [l|] eqn:Hrem;
    [|by apply remove_first_None in Hrem].
  simpl in Ef. apply remove_first_Some in Hrem as (_ & Hsub & Hkeep & Hnd).
  destruct (Hnd (inv_files _ Hinv)) as [_ Hp]. split.
  - split; simpl; [by rewrite Ef|]. split; [done|]. split; [done|].
    intros Hsc. by apply (inv_fresh _ Hinv p Hsc).
  - intros q Hne. rewrite Ef. split; auto.
Qed.

(** In every other case the path is settled after the release: with
    neither move nor delete, after an exception, or when the scanner had not
    recorded the path yet. *)
Lemma release_settles self s sc ws i p r :
  inv (System s sc ws) -> acct (System s sc ws) ->
  ws !! i = Some (WorkProcessed p r) ->
  (rm self || truthy (mv self))%bool = false \/ (exists e, r = Raise e) \/ (p ∉ files s) ->
  exists s',
    work_release self p r s = (Ok tt, s')
    /\ files s' = files s
    /\ settled p (System s' sc (<[i := WorkTop]> ws)).
Proof.
  intros Hinv Hacct Hi Hcase.
  destruct (release_step self s sc ws i p r Hinv Hacct Hi)
    as (s' & Hrel & _ & _ & _ & _ & _ & Ef & Hq & Hh).
  exists s'. split; [done|].
  assert (Ef' : files s' = files s).
  { rewrite Ef. destruct r as [b|e]; [|done].
    destruct Hcase as [->|[[e [=]]|Hno]]; [done|].
    apply remove_first_None in Hno. rewrite Hno. by destruct (rm self || truthy (mv self))%bool. }
  split; [done|].
  pose proof (held_lookup ws i _ p Hi eq_refl) as Hheld.
  destruct (inv_tracked _ Hinv p (or_intror Hheld)) as [Hin|Hpushed]; simpl in *.
  - left. split; simpl; [by rewrite Ef'|]. split; [done|]. split; [done|].
    intros Hsc. by apply (inv_fresh _ Hinv p Hsc).
  - right. done.
Qed.

(** ** What the tracker reports *)

Lemma ceil_step n : 0 < n -> (n + 1023) / 1024 = S ((n - 1024 + 1023) / 1024).
Proof.
  intros Hn. destruct (decide (n <= 1024)) as [Hle|Hgt].
  - replace (n - 1024 + 1023) with 1023 by lia.
    rewrite (Nat.div_small 1023 1024) by lia.
    symmetry. apply Nat.div_unique with (r := n - 1). all: lia.
  - replace (n + 1023) with ((n - 1024 + 1023) + 1 * 1024) by lia.
    rewrite Nat.div_add by lia. lia.
Qed.

#[local] Arguments Nat.mul : simpl never.
#[local] Arguments Nat.div : simpl never.

Lemma stor_loop_S fuel f blocksize callback fp :
  FTP.stor_loop (S fuel) f blocksize callback fp =
  match take blocksize fp with
  | [] => ret f
  | buf =>
      FTP.sendall f buf ;;
      callback buf ;;
      FTP.stor_loop fuel (FTP.later f) blocksize callback (drop blocksize fp)
  end.
Proof. reflexivity. Qed.

Lemma advanced_app id l1 l2 : advanced id (l1 ++ l2) = advanced id l1 + advanced id l2.
Proof.
  induction l1 as [|e l1 IH]; [done|]. simpl. destruct e; rewrite ?IH; lia.
Qed.

(** An undisturbed transfer reports 1024 bytes for every block, the last
    and shorter one included. *)
Lemma stor_loop_advance id fuel : forall data s,
  is_Some (tasks s !! id) -> length data < fuel ->
  exists s' evs,
    FTP.stor_loop fuel None 1024 (handle (Tracker id)) data s = (Ok None, s')
    /\ log s' = (evs ++ log s)%list
    /\ advanced id evs = 1024 * ((length data + 1023) / 1024)
    /\ is_Some (tasks s' !! id).
Proof.
  induction fuel as [|fuel IH]; intros data s Ht Hlen; [lia|].
  rewrite stor_loop_S.
  destruct (take 1024 data) as [|b' buf] eqn:Hb.
  { assert (data = []) as -> by (by destruct data).
    exists s, []. split; [done|]. split; [done|]. split; [|done].
    change (length (@nil byte) + 1023) with 1023.
    rewrite (Nat.div_small 1023 1024) by lia. reflexivity. }
  assert (Hpos : 0 < length data) by (destruct data; [done | simpl; lia]).
  unfold FTP.sendall, bind, emit, modify. rewrite handle_eq.
  destruct Ht as [t Ht]. simpl. rewrite Ht.
  match goal with |- context [FTP.stor_loop fuel _ _ _ ?d ?s1] =>
    destruct (IH d s1) as (s' & evs & -> & Hlog & Hadv & Htask) end.
  { simpl. rewrite lookup_insert_eq. eauto. }
  { rewrite length_drop. lia. }
  exists s', (evs ++ [EvUpdate id 1024; EvSend (b' :: buf)])%list.
  split; [done|]. split; [rewrite Hlog; simpl; by rewrite <- app_assoc|].
  split; [|done].
  rewrite advanced_app, Hadv. cbn [advanced]. rewrite Nat.eqb_refl.
  rewrite length_drop. rewrite (ceil_step (length data)) by done. lia.
Qed.

Lemma storbinary_advance id cmd data s :
  is_Some (tasks s !! id) ->
  exists s' evs,
    FTP.storbinary calm cmd data 1024 (handle (Tracker id)) s = (Ok tt, s')
    /\ log s' = (evs ++ log s)%list
    /\ advanced id evs = 1024 * ((length data + 1023) / 1024).
Proof.
  intros Ht. unfold FTP.storbinary, bind, emit, modify. simpl.
  match goal with |- context [FTP.stor_loop ?n _ _ _ _ ?s1] =>
    destruct (stor_loop_advance id n data s1) as (s' & evs & -> & Hlog & Hadv & _) end;
    [done | lia |].
  eexists _, (EvStorComplete cmd :: evs ++ [EvStor cmd])%list.
  split; [reflexivity|]. simpl. rewrite Hlog. simpl.
  split; [by rewrite <- app_assoc|].
  rewrite advanced_app. simpl. lia.
Qed.

(** ** A pass of the scanner with room in the queue *)

Section ScannerPass.

Variable self : AutoUploadModule.

Lemma visit_effect file s :
  length (queue s) < maxsize ->
  exists s',
    visit self file s = (Ok tt, s')
    /\ fs s' = fs s
    /\ length (queue s') <= S (length (queue s))
    /\ (forall x, x ∈ queue s -> x ∈ queue s')
    /\ (forall x, x ∈ files s -> x ∈ files s')
    /\ (forall x, x ∈ files s' -> (x ∈ files s) \/ (x ∈ queue s'))
    /\ (isfile_in (fs s) (Path.join (source_dir self) file) = true ->
        (truthy (mv self) = true -> isfile_in (fs s) (Path.join (mv self) file) = false) ->
        Path.join (source_dir self) file ∈ files s').
Proof.
  intros Hroom. unfold visit, scan_blocked, os_isfile, bind, ret, get.
  assert (Hsame : forall s0 : state,
            fs s0 = fs s -> queue s0 = queue s -> files s0 = files s ->
            fs s0 = fs s
            /\ length (queue s0) <= S (length (queue s))
            /\ (forall x, x ∈ queue s -> x ∈ queue s0)
            /\ (forall x, x ∈ files s -> x ∈ files s0)
            /\ (forall x, x ∈ files s0 -> (x ∈ files s) \/ (x ∈ queue s0))).
  { intros s0 -> -> ->. repeat split; auto. }
  assert (Happ : exists s',
            _append_file (Path.join (source_dir self) file) s = (Ok tt, s')
            /\ fs s' = fs s
            /\ length (queue s') <= S (length (queue s))
            /\ (forall x, x ∈ queue s -> x ∈ queue s')
            /\ (forall x, x ∈ files s -> x ∈ files s')
            /\ (forall x, x ∈ files s' -> (x ∈ files s) \/ (x ∈ queue s'))
            /\ (isfile_in (fs s) (Path.join (source_dir self) file) = true ->
                Path.join (source_dir self) file ∈ files s')).
  { rewrite append_file_eq.
    destruct (bool_decide (Path.join (source_dir self) file ∈ files s)) eqn:Hin.
    { apply bool_decide_eq_true in Hin. eexists. split; [reflexivity|].
      destruct (Hsame s) as (? & ? & ? & ? & ?); auto 10. }
    destruct (isfile_in (fs s) (Path.join (source_dir self) file)) eqn:Hf; cbn [negb].
    2:{ eexists. split; [reflexivity|].
        destruct (Hsame s) as (? & ? & ? & ? & ?); auto. repeat split; auto. done. }
    destruct (Nat.leb maxsize (length (queue s))) eqn:E; [apply Nat.leb_le in E; lia|].
    eexists. split; [reflexivity|]. simpl.
    split; [done|]. split; [rewrite length_app; simpl; lia|].
    split; [intros x Hx; apply elem_of_app; auto|].
    split; [intros x Hx; apply elem_of_app; auto|].
    split.
    - intros x [Hx| ->%list_elem_of_singleton]%elem_of_app; [by left|].
      right. apply elem_of_app. right. by apply list_elem_of_singleton.
    - intros _. apply elem_of_app. right. by apply list_elem_of_singleton. }
  destruct (truthy (mv self)) eqn:Hmv.
  - destruct (isfile_in (fs s) (Path.join (mv self) file)) eqn:Ht.
    + eexists. split; [reflexivity|]. simpl.
      destruct (Hsame s) as (? & ? & ? & ? & ?); auto.
      repeat split; auto. intros _ Hno. specialize (Hno eq_refl). congruence.
    + destruct Happ as (s' & -> & ? & ? & ? & ? & ? & ?). exists s'. repeat split; auto.
  - destruct Happ as (s' & -> & ? & ? & ? & ? & ? & ?). exists s'. repeat split; auto.
Qed.

Lemma for_each_visit found : forall s,
  length (queue s) + length found <= maxsize ->
  exists s',
    for_each found (visit self) s = (Ok tt, s')
    /\ fs s' = fs s
    /\ (forall x, x ∈ queue s -> x ∈ queue s')
    /\ (forall x, x ∈ files s -> x ∈ files s')
    /\ (forall x, x ∈ files s' -> (x ∈ files s) \/ (x ∈ queue s'))
    /\ (forall file, file ∈ found ->
        isfile_in (fs s) (Path.join (source_dir self) file) = true ->
        (truthy (mv self) = true -> isfile_in (fs s) (Path.join (mv self) file) = false) ->
        Path.join (source_dir self) file ∈ files s').
Proof.
  induction found as [|file rest IH]; intros s Hroom; simpl.
  - exists s. repeat split; auto. intros file Hin. by apply elem_of_nil in Hin.
  - simpl in Hroom.
    destruct (visit_effect file s) as (s1 & Hv & Hfs & Hlen & Hq & Hf & Hback & Hnew); [lia|].
    unfold bind. rewrite Hv.
    destruct (IH s1) as (s' & -> & Hfs' & Hq' & Hf' & Hback' & Hnew'); [lia|].
    exists s'. split; [done|]. split; [congruence|].
    split; [auto|]. split; [auto|]. split.
    + intros x Hx. destruct (Hback' x Hx) as [H1|H1]; [|by right].
      destruct (Hback x H1) as [H2|H2]; [by left | right; auto].
    + intros f [->|Hin]%elem_of_cons Hfile Hmv.
      * apply Hf'. by apply Hnew.
      * apply Hnew'; [done | by rewrite Hfs | by rewrite Hfs].
Qed.

Lemma scanner_round_visits s :
  scanner_round self s = (found <- scan_begin self ;; for_each found (visit self)) s.
Proof. apply scanner_round_cut. Qed.

Lemma scanner_round_enqueues name s :
  isdir_in (fs s) (source_dir self) = true ->
  name ∈ entries (fs s) (source_dir self) ->
  isfile_in (fs s) (Path.join (source_dir self) name) = true ->
  Path.join (source_dir self) name ∉ files s ->
  (truthy (mv self) = true -> isfile_in (fs s) (Path.join (mv self) name) = false) ->
  length (queue s) + length (entries (fs s) (source_dir self)) <= maxsize ->
  exists s',
    scanner_round self s = (Ok tt, s')
    /\ fs s' = fs s
    /\ Path.join (source_dir self) name ∈ queue s'
    /\ Path.join (source_dir self) name ∈ files s'.
Proof.
  intros Hd Hname Hfile Hfresh Hmv Hroom.
  rewrite scanner_round_visits. unfold scan_begin, os_listdir, bind, sleep, emit, modify, get.
  simpl. rewrite Hd.
  set (found := filter _ _).
  assert (Hin : name ∈ found) by (apply list_elem_of_filter; done).
  assert (Hlen : length found <= length (entries (fs s) (source_dir self)))
    by apply length_filter.
  destruct (for_each_visit found (set_log (EvSleep 1 :: log s) s))
    as (s' & -> & Hfs & _ & _ & Hback & Hnew); [simpl; lia|].
  exists s'. split; [done|]. split; [done|].
  pose proof (Hnew name Hin Hfile Hmv) as Hp. split; [|done].
  destruct (Hback _ Hp) as [?|?]; done.
Qed.

End ScannerPass.

(** ** Facts about the small world *)

Ltac go c := eapply rtc_l; [ c; vm_compute; reflexivity | ].

Lemma demo_pushed_reachable : rtc (step plain) (boot plain demo_fs) demo_pushed.
Proof.
  go ltac:(eapply step_scan_enter).
  go ltac:(eapply (step_scan_begin plain _ _ ["a.txt"; "b.txt"])).
  go ltac:(eapply (step_scan_test plain _ _ _ "a.txt" ["b.txt"] false)).
  go ltac:(eapply (step_scan_push plain _ _ "/src/a.txt" ["b.txt"] true)).
  apply rtc_refl.
Qed.

Ltac to_skipped self :=
  go ltac:(eapply step_scan_enter);
  go ltac:(eapply (step_scan_begin self _ _ ["a.txt"; "b.txt"]));
  go ltac:(eapply (step_scan_test self _ _ _ "a.txt" ["b.txt"] false));
  go ltac:(eapply (step_scan_push self _ _ "/src/a.txt" ["b.txt"] true));
  go ltac:(eapply step_scan_record);
  go ltac:(eapply (step_scan_test self _ _ _ "b.txt" [] false));
  go ltac:(eapply (step_scan_push self _ _ "/src/b.txt" [] true));
  go ltac:(eapply step_scan_record);
  go ltac:(eapply (step_work_enter self _ _ _ 0));
  go ltac:(eapply (step_work_take self _ _ _ _ 0 (Some "/src/a.txt")));
  go ltac:(eapply (step_work_enter self _ _ _ 1));
  go ltac:(eapply (step_work_take self _ _ _ _ 1 (Some "/src/b.txt")));
  go ltac:(eapply (step_work_process self _ _ _ _ 1 "/src/b.txt" calm (Ok false)));
  apply rtc_refl.


Lemma demo_skipped_remover : rtc (step remover) (boot remover demo_fs) demo_skipped.
Proof. to_skipped remover. Qed.

Ltac to_stranded self :=
  go ltac:(eapply step_scan_enter);
  go ltac:(eapply (step_scan_begin self _ _ ["a.txt"; "b.txt"]));
  go ltac:(eapply (step_scan_test self _ _ _ "a.txt" ["b.txt"] false));
  go ltac:(eapply (step_scan_push self _ _ "/src/a.txt" ["b.txt"] true));
  go ltac:(eapply step_scan_record);
  go ltac:(eapply (step_scan_test self _ _ _ "b.txt" [] false));
  go ltac:(eapply (step_scan_push self _ _ "/src/b.txt" [] true));
  go ltac:(eapply (step_work_enter self _ _ _ 0));
  go ltac:(eapply (step_work_take self _ _ _ _ 0 (Some "/src/a.txt")));
  go ltac:(eapply (step_work_enter self _ _ _ 1));
  go ltac:(eapply (step_work_take self _ _ _ _ 1 (Some "/src/b.txt")));
  go ltac:(eapply (step_work_process self _ _ _ _ 1 "/src/b.txt" calm (Ok false)));
  go ltac:(eapply (step_work_release self _ _ _ _ 1 "/src/b.txt" (Ok false) (Ok tt)));
  go ltac:(eapply step_scan_record);
  apply rtc_refl.

Lemma demo_stranded_remover : rtc (step remover) (boot remover demo_fs) demo_stranded.
Proof. to_stranded remover. Qed.


Lemma demo_vanished_remover : rtc (step remover) (boot remover demo_fs) demo_vanished.
Proof.
  go ltac:(eapply step_scan_enter).
  go ltac:(eapply (step_scan_begin remover _ _ ["a.txt"; "b.txt"])).
  go ltac:(eapply (step_scan_test remover _ _ _ "a.txt" ["b.txt"] false)).
  go ltac:(eapply (step_scan_push remover _ _ "/src/a.txt" ["b.txt"] true)).
  go ltac:(eapply step_scan_record).
  go ltac:(eapply (step_work_enter remover _ _ _ 0)).
  go ltac:(eapply (step_work_take remover _ _ _ _ 0 (Some "/src/a.txt"))).
  go ltac:(eapply (step_work_process remover _ _ _ _ 0 "/src/a.txt" vanishing (Raise FileNotFoundError))).
  eapply rtc_l; [exact (step_world remover _ _ _ (delete "/src/a.txt" demo_fs))|].
  go ltac:(eapply (step_work_release remover _ _ _ _ 0 "/src/a.txt" (Raise FileNotFoundError) (Ok tt))).
  apply rtc_refl.
Qed.

Lemma demo_scanned_eq : scanner_round plain demo_state = (Ok tt, demo_scanned).
Proof. vm_compute. reflexivity. Qed.

(** * The claims *)

(** C1 (defect of the code).  The claim: the pool has as many workers as
    [--threads] says.  The code: [main] passes [num_threads=3] to the
    uploader whatever [args.threads] holds, so the parsed value changes
    nothing; with [--threads 5] the uploader is built for three threads and
    three workers are started. *)
Theorem threads_argument_ignored :
  (forall abspath src host n u pw port dir mvd del dbg fs0,
     main abspath (Args src host n u pw port dir mvd del dbg) fs0
     = main abspath (Args src host 3 u pw port dir mvd del dbg) fs0)
  /\ main (fun p => p) (Args "/src" "host" 5 "anonymous" "" 22 "/" "" false false) demo_fs
     = inr plain
  /\ num_threads plain = 3
  /\ length (workers plain) = 3
  /\ length (pool (boot plain demo_fs)) = 3.
Proof.
  split; [reflexivity|]. split; [vm_compute; reflexivity|]. done.
Qed.

(** C2 (amended).  A file that passes validation (it exists and is not
    empty) gets exactly one progress indicator, and that indicator is removed
    exactly once, and is gone from the display, whenever the processing ends
    in failure or move or delete is configured.  A file that is skipped
    (missing or empty) gets no indicator and none is removed; nor does a
    file on which [os.path.getsize] fails, since the exception leaves
    [_process_file] before an indicator is created. *)
Theorem progress_teardown self w p s :
  exists r s' evs,
    _process_file self w p s = (r, s')
    /\ log s' = (evs ++ log s)%list
    /\ match r with
       | Ok b =>
           match fs s !! p with
           | Some (File (_ :: _)) =>
               count (adds (next_task s)) evs = 1
               /\ (b = false \/ truthy (mv self) = true \/ rm self = true ->
                   count (removes (next_task s)) evs = 1
                   /\ tasks s' !! next_task s = None)
           | _ =>
               b = false /\ tasks s' = tasks s
               /\ forall id, count (adds id) evs = 0 /\ count (removes id) evs = 0
           end
       | Raise e =>
           getsize_fault w = Some e /\ tasks s' = tasks s
           /\ forall id, count (adds id) evs = 0 /\ count (removes id) evs = 0
       end.
Proof.
  destruct (process_file_spec self w p s) as (r & fs' & t' & n' & evs & Heq & _ & _ & H).
  eexists r, _, evs. split; [exact Heq|]. split; [done|]. simpl.
  destruct r as [b|e].
  - destruct (fs s !! p) as [[[|x d]|]|].
    + destruct H as (-> & _ & -> & _ & m & ->). done.
    + destruct H as (Ha & Hr & Ht). split; [done|]. intros Hc.
      assert ((negb b || truthy (mv self) || rm self)%bool = true) as Hb.
      { destruct Hc as [-> | [-> | ->]]; simpl; rewrite ?orb_true_r; done. }
      rewrite Hb in Hr. split; [done|]. by apply Ht.
    + destruct H as (-> & _ & -> & _ & m & ->). done.
    + destruct H as (-> & _ & -> & _ & m & ->). done.
  - destruct H as (Hw & _ & _ & -> & _ & ->). done.
Qed.

(** C2, as stated, fails: with neither move nor delete configured, a
    successfully uploaded file leaves its indicator on the display (created
    once, never removed); and a skipped file never had an indicator that
    could be removed once. *)
Lemma progress_teardown_counterexample :
  (exists s', _process_file plain calm "/src/a.txt" demo_state = (Ok true, s')
     /\ count (adds 0) (log s') = 1
     /\ count (removes 0) (log s') = 0
     /\ is_Some (tasks s' !! 0))
  /\ (exists s', _process_file plain calm "/src/b.txt" demo_state = (Ok false, s')
     /\ (forall id, count (adds id) (log s') = 0 /\ count (removes id) (log s') = 0)).
Proof.
  split.
  - eexists. split; [vm_compute; reflexivity|]. vm_compute. eauto.
  - eexists. split; [vm_compute; reflexivity|]. intros id. vm_compute. done.
Qed.

(** C3 (defect of the code).  The claim: the advances reported for a file
    of size S add up to S.  The code: [handle] ignores its block and reports
    1024 for each one, so a 10-byte file is reported as 1024 bytes against a
    total of 10 (in general 1024 per block, see [storbinary_advance]). *)
Theorem progress_overreports_short_block :
  exists s',
    _process_file plain calm "/src/a.txt" demo_state = (Ok true, s')
    /\ fs demo_state !! "/src/a.txt" = Some (File (replicate 10 x00))
    /\ advanced 0 (log s') = 1024
    /\ tasks s' !! 0 = Some (Task "a.txt" 10 1024 true).
Proof.
  eexists. split; [vm_compute; reflexivity|]. vm_compute. done.
Qed.

(** C4 (amended).  In every reachable state, every path in the queue is in
    the tracked list or is the one path the scanner has just put and not yet
    appended: the put comes first, the append right after it.  Whenever the
    scanner is not between the two, every queued path is tracked. *)
Theorem queue_tracked_or_pending self fs0 sys :
  rtc (step self) (boot self fs0) sys ->
  (forall q, q ∈ queue (shared sys) ->
     (q ∈ files (shared sys)) \/ pushed_path (scanner sys) = Some q)
  /\ (pushed_path (scanner sys) = None ->
      forall q, q ∈ queue (shared sys) -> q ∈ files (shared sys)).
Proof.
  intros Hreach.
  pose proof (inv_reachable self _ _ (inv_boot self fs0) Hreach) as Hinv.
  split.
  - intros q Hq. apply Hinv. by left.
  - intros Hnone q Hq. destruct (inv_tracked _ Hinv q (or_introl Hq)) as [?|Hp]; [done|].
    rewrite Hnone in Hp. done.
Qed.

Lemma queue_tracked_or_pending_witness :
  rtc (step plain) (boot plain demo_fs) demo_pushed
  /\ (forall q, q ∈ queue (shared demo_pushed) ->
        (q ∈ files (shared demo_pushed)) \/ pushed_path (scanner demo_pushed) = Some q)
  /\ (pushed_path (scanner demo_pushed) = None ->
      forall q, q ∈ queue (shared demo_pushed) -> q ∈ files (shared demo_pushed)).
Proof.
  split; [exact demo_pushed_reachable|].
  exact (queue_tracked_or_pending plain demo_fs demo_pushed demo_pushed_reachable).
Defined.

(** C4, as stated, fails: after the scanner's [put] and before its
    [append], a reachable state has [/src/a.txt] in the queue and not in the
    tracked list. *)
Lemma queue_ahead_of_tracking :
  rtc (step plain) (boot plain demo_fs) demo_pushed
  /\ ("/src/a.txt" ∈ queue (shared demo_pushed))
  /\ ("/src/a.txt" ∉ files (shared demo_pushed)).
Proof.
  split; [exact demo_pushed_reachable|]. split.
  - simpl. left.
  - simpl. apply not_elem_of_nil.
Qed.

(** C5 (amended).  When [_process_file] has returned, whatever it
    returned, the worker's release is the same: in every reachable state it
    returns normally, and a path that the scanner has recorded is gone from
    the tracked list afterwards exactly when move or delete is configured,
    all other tracked paths staying.  A path that is not recorded at that
    moment is the one the scanner has put and not yet appended: nothing is
    taken off the list then, and from the scanner's append on the path is
    tracked in every later state.  With neither move nor delete no step of
    any thread ever takes a path off the tracked list. *)
Theorem dedup_release_rule self fs0 sys i p b :
  rtc (step self) (boot self fs0) sys ->
  pool sys !! i = Some (WorkProcessed p (Ok b)) ->
  exists s',
    (forall b', work_release self p (Ok b') (shared sys) = (Ok tt, s'))
    /\ step self sys (System s' (scanner sys) (<[i := WorkTop]> (pool sys)))
    /\ (p ∈ files (shared sys) ->
        ((p ∉ files s') <-> (rm self = true \/ mv self <> ""))
        /\ forall q, q <> p -> (q ∈ files s' <-> q ∈ files (shared sys)))
    /\ (p ∉ files (shared sys) ->
        pushed_path (scanner sys) = Some p /\ files s' = files (shared sys)
        /\ forall sys2,
             rtc (step self) (System s' (scanner sys) (<[i := WorkTop]> (pool sys))) sys2 ->
             (p ∈ files (shared sys2)) \/ pushed_path (scanner sys2) = Some p)
    /\ (rm self = false -> mv self = "" ->
        forall sys1 sys2, rtc (step self) sys1 sys2 ->
        forall x, x ∈ files (shared sys1) -> x ∈ files (shared sys2)).
Proof.
  intros Hreach Hi. destruct sys as [s sc ws]. simpl in *.
  destruct (reachable_inv self fs0 _ Hreach) as [Hinv Hacct].
  destruct (release_step self s sc ws i p (Ok b) Hinv Hacct Hi)
    as (s' & Hrel & Hstep & _).
  exists s'. split; [intros b'; exact Hrel|]. split; [exact Hstep|].
  split; [|split].
  - intros Hin. destruct (rm self || truthy (mv self))%bool eqn:Hmode.
    + destruct (release_frees self s sc ws i p b Hinv Hacct Hi Hmode Hin)
        as (s2 & Hrel2 & (Hout & _) & Hkeep).
      rewrite Hrel in Hrel2. injection Hrel2 as <-. simpl in Hout.
      split; [|exact Hkeep]. split; [|done]. intros _.
      apply orb_true_iff in Hmode as [?|?%truthy_true]; auto.
    + destruct (release_settles self s sc ws i p (Ok b) Hinv Hacct Hi (or_introl Hmode))
        as (s2 & Hrel2 & Ef & _).
      rewrite Hrel in Hrel2. injection Hrel2 as <-. rewrite Ef.
      apply orb_false_iff in Hmode as [Hrm Hmv%truthy_false].
      split; [|done]. split; [done|]. intros [?|?]; congruence.
  - intros Hout.
    destruct (release_settles self s sc ws i p (Ok b) Hinv Hacct Hi
                (or_intror (or_intror Hout))) as (s2 & Hrel2 & Ef & Hset).
    rewrite Hrel in Hrel2. injection Hrel2 as <-. split; [|split; [done|]].
    + pose proof (held_lookup ws i _ p Hi eq_refl) as Hheld.
      destruct (inv_tracked _ Hinv p (or_intror Hheld)) as [?|?]; done.
    + intros sys2 Hrtc.
      destruct (settled_forever self p _ sys2 Hrtc Hset) as [(? & _)|(? & _)]; auto.
  - intros Hrm Hmv sys1 sys2 Hrtc x Hx. by eapply files_stay.
Qed.

Lemma dedup_release_rule_witness :
  (rtc (step remover) (boot remover demo_fs) demo_skipped
   /\ pool demo_skipped !! 1 = Some (WorkProcessed "/src/b.txt" (Ok false)))
  /\ exists s',
       (forall b', work_release remover "/src/b.txt" (Ok b') (shared demo_skipped) = (Ok tt, s'))
       /\ step remover demo_skipped
            (System s' (scanner demo_skipped) (<[1 := WorkTop]> (pool demo_skipped)))
       /\ ("/src/b.txt" ∈ files (shared demo_skipped) ->
           (("/src/b.txt" ∉ files s') <-> (rm remover = true \/ mv remover <> ""))
           /\ forall q, q <> "/src/b.txt" ->
                (q ∈ files s' <-> q ∈ files (shared demo_skipped)))
       /\ ("/src/b.txt" ∉ files (shared demo_skipped) ->
           pushed_path (scanner demo_skipped) = Some "/src/b.txt"
           /\ files s' = files (shared demo_skipped)
           /\ forall sys2,
                rtc (step remover)
                  (System s' (scanner demo_skipped) (<[1 := WorkTop]> (pool demo_skipped)))
                  sys2 ->
                ("/src/b.txt" ∈ files (shared sys2))
                \/ pushed_path (scanner sys2) = Some "/src/b.txt")
       /\ (rm remover = false -> mv remover = "" ->
           forall sys1 sys2, rtc (step remover) sys1 sys2 ->
           forall x, x ∈ files (shared sys1) -> x ∈ files (shared sys2)).
Proof.
  split; [split; [exact demo_skipped_remover | reflexivity]|].
  exact (dedup_release_rule remover demo_fs demo_skipped 1 "/src/b.txt" false
           demo_skipped_remover eq_refl).
Defined.

(** C5, as stated, fails, with delete configured.  A worker can take
    [/src/b.txt] between the scanner's [put] and [append]: it processes the
    file (a skip), finds nothing to take off the list, and the scanner's
    [append] then leaves the path tracked for good.  And when
    [/src/a.txt] is removed between [isfile] and [getsize], the exception
    of [getsize] jumps over the [remove]: the path stays tracked for good as
    well, so that a later file of that name is never taken up. *)
Lemma release_rule_fails :
  rm remover = true
  /\ (rtc (step remover) (boot remover demo_fs) demo_stranded
      /\ (EvPrint Stderr (MsgZeroSize "b.txt") ∈ log (shared demo_stranded))
      /\ forall sys', rtc (step remover) demo_stranded sys' ->
           ("/src/b.txt" ∈ files (shared sys')) /\ ("/src/b.txt" ∉ held (pool sys')))
  /\ (rtc (step remover) (boot remover demo_fs) demo_vanished
      /\ fs (shared demo_vanished) !! "/src/a.txt" = None
      /\ (EvPrint Stderr (MsgFileError "a.txt" FileNotFoundError) ∈ log (shared demo_vanished))
      /\ forall sys', rtc (step remover) demo_vanished sys' ->
           ("/src/a.txt" ∈ files (shared sys')) /\ ("/src/a.txt" ∉ held (pool sys'))).
Proof.
  split; [reflexivity|]. split.
  - split; [exact demo_stranded_remover|]. split; [left|].
    intros sys' Hrtc.
    assert (Hpark : parked "/src/b.txt" demo_stranded).
    { split; simpl; [set_solver|]. split; [apply not_elem_of_nil|]. split; [|done].
      unfold held. simpl.
      intros [Hx|Hx]%elem_of_cons; [discriminate Hx | by apply elem_of_nil in Hx]. }
    destruct (parked_forever remover _ _ _ Hrtc Hpark) as (? & _ & ? & _). done.
  - split; [exact demo_vanished_remover|]. split; [vm_compute; reflexivity|]. split; [left|].
    intros sys' Hrtc.
    assert (Hpark : parked "/src/a.txt" demo_vanished).
    { split; simpl; [set_solver|]. split; [apply not_elem_of_nil|]. split; [|done].
      unfold held. simpl. apply not_elem_of_nil. }
    destruct (parked_forever remover _ _ _ Hrtc Hpark) as (? & _ & ? & _). done.
Qed.

(** C6 (amended).  The scanner does not look at sizes: a zero-byte file
    that is not tracked is put into the queue like any other when there is
    room.  It is never transferred: the worker that takes it reports
    "zero file size" and does nothing else, no progress indicator, no
    connection, no change of the file system; and when [os.path.getsize]
    fails on it, the call ends there with the state untouched. *)
Theorem zero_byte_never_transferred self w p s :
  fs s !! p = Some (File []) ->
  _process_file self w p s
    = match getsize_fault w with
      | None =>
          (Ok false, set_log (EvPrint Stderr (MsgZeroSize (Path.basename p)) :: log s) s)
      | Some e => (Raise e, s)
      end
  /\ (p ∉ files s -> length (queue s) < maxsize ->
      exists s', _append_file p s = (Ok tt, s') /\ queue s' = (queue s ++ [p])%list).
Proof.
  intros Hp. split; [by apply process_zero_byte|].
  intros Hf Hq. rewrite append_file_enqueues; [| done | by unfold isfile_in; rewrite Hp | done].
  eexists. split; [reflexivity|]. done.
Qed.

Lemma zero_byte_never_transferred_witness :
  fs demo_state !! "/src/b.txt" = Some (File [])
  /\ _process_file plain calm "/src/b.txt" demo_state
     = (Ok false,
        set_log (EvPrint Stderr (MsgZeroSize (Path.basename "/src/b.txt")) :: log demo_state)
          demo_state)
  /\ ("/src/b.txt" ∉ files demo_state -> length (queue demo_state) < maxsize ->
      exists s', _append_file "/src/b.txt" demo_state = (Ok tt, s')
                 /\ queue s' = (queue demo_state ++ ["/src/b.txt"])%list).
Proof.
  split; [vm_compute; reflexivity|].
  apply (zero_byte_never_transferred plain calm "/src/b.txt" demo_state).
  vm_compute. reflexivity.
Defined.

(** C6, as stated, fails: one pass of the scanner over a directory holding
    the empty file [/src/b.txt] puts that file into the queue. *)
Lemma zero_byte_enqueued :
  exists s',
    scanner_round plain demo_state = (Ok tt, s')
    /\ fs demo_state !! "/src/b.txt" = Some (File [])
    /\ "/src/b.txt" ∈ queue s'.
Proof.
  exists demo_scanned. split; [exact demo_scanned_eq|]. split; [vm_compute; reflexivity|].
  simpl. right. left.
Qed.

(** C7 (defect of the code).  The claim: the connection goes to the port
    given by [--ftp_port].  The code: [main] never reads [args.ftp_port] and
    the uploader has no port at all; [ftplib.FTP(host=...)] connects to
    ftplib's default port 21.  With [--ftp_port 2121 --ftp_dir /up] the
    transfer connects to port 21; it does change into [/up] before the
    store, as the claim says. *)
Theorem ftp_port_argument_ignored :
  (forall abspath src host n u pw port dir mvd del dbg fs0,
     main abspath (Args src host n u pw port dir mvd del dbg) fs0
     = main abspath (Args src host n u pw 22 dir mvd del dbg) fs0)
  /\ main (fun p => p) (Args "/src" "host" 3 "anonymous" "" 2121 "/up" "" false false) demo_fs
     = inr lister
  /\ exists s',
       _process_file lister calm "/src/a.txt" demo_state = (Ok true, s')
       /\ rev (log s')
          = [EvAddTask 0 "a.txt" 10; EvRefresh; EvConnect "host" 21;
             EvLogin "anonymous" ""; EvEncoding "utf-8"; EvCwd "/up"; EvStartTask 0;
             EvStor "STOR a.txt"; EvSend (replicate 10 x00); EvUpdate 0 1024;
             EvStorComplete "STOR a.txt"; EvQuit; EvPrint Stdout (MsgUploaded "a.txt")].
Proof.
  split; [reflexivity|]. split; [vm_compute; reflexivity|].
  eexists. split; vm_compute; reflexivity.
Qed.

(** C8.  Processing a file changes the local file system only after the
    transfer of that file has completed: in the events of the call every
    rename or delete comes after the completion of the store, and without a
    completed store (failed upload, skipped file, exception) there is no
    rename, no delete, and the file system is what it was.  [_upload_file]
    answers [True] exactly when the store has completed and the closing QUIT
    has gone through. *)
Theorem mutation_only_after_upload self w p s :
  (exists r s' evs,
     _process_file self w p s = (r, s')
     /\ log s' = (evs ++ log s)%list
     /\ guarded ("STOR " ++ Path.basename p) evs = true
     /\ (existsb (completes ("STOR " ++ Path.basename p)) evs = false ->
         existsb mutation evs = false /\ fs s' = fs s))
  /\ (forall id s0, exists r s1 ups,
        _upload_file self w p (Path.basename p) id s0 = (r, s1)
        /\ log s1 = (ups ++ log s0)%list
        /\ (r = Ok true <->
            existsb (completes ("STOR " ++ Path.basename p)) ups = true
            /\ quit_fault w = None /\ bye_fault w = None)).
Proof.
  split.
  - destruct (process_file_spec self w p s) as (r & fs' & t' & n' & evs & Heq & Hg & Hfs & _).
    eexists r, _, evs. split; [exact Heq|]. split; [done|]. split; [done|].
    intros Hc. pose proof (guarded_needs_upload _ _ Hg Hc) as Hm. split; [done|]. simpl. auto.
  - intros id s0.
    destruct (upload_spec self w p (Path.basename p) id s0) as (r & t' & ups & Heq & _ & _ & Hr).
    eexists r, _, ups. split; [exact Heq|]. split; [by destruct s0|]. done.
Qed.

(** C9.  The queue is built with capacity 15 and never holds more than 15
    paths in any reachable state.  An attempt to enqueue into a full queue
    leaves the queue and the tracked list as they were, raises nothing, and
    ends with a sleep of five seconds; [_append_file] raises in no state, and
    a pass of the scanner over an existing directory raises nothing. *)
Theorem bounded_queue_backpressure self fs0 sys p s :
  rtc (step self) (boot self fs0) sys ->
  maxsize <= length (queue s) -> p ∉ files s -> isfile_in (fs s) p = true ->
  maxsize = 15
  /\ length (queue (shared sys)) <= 15
  /\ _append_file p s = (Ok tt, set_log (EvSleep 5 :: log s) s)
  /\ (forall p0 s0, exists s1, _append_file p0 s0 = (Ok tt, s1))
  /\ (forall s0, isdir_in (fs s0) (source_dir self) = true ->
      exists s1, scanner_round self s0 = (Ok tt, s1)).
Proof.
  intros Hreach Hfull Hp Hf.
  split; [reflexivity|].
  split; [apply (inv_bound _ (inv_reachable self _ _ (inv_boot self fs0) Hreach))|].
  split; [by apply append_file_full|].
  split; [apply append_file_total | apply scanner_round_total].
Qed.

Lemma bounded_queue_backpressure_witness :
  (rtc (step plain) (boot plain demo_fs) demo_pushed
   /\ maxsize <= length (queue demo_full)
   /\ ("/src/a.txt" ∉ files demo_full)
   /\ isfile_in (fs demo_full) "/src/a.txt" = true)
  /\ maxsize = 15
  /\ length (queue (shared demo_pushed)) <= 15
  /\ _append_file "/src/a.txt" demo_full
     = (Ok tt, set_log (EvSleep 5 :: log demo_full) demo_full)
  /\ (forall p0 s0, exists s1, _append_file p0 s0 = (Ok tt, s1))
  /\ (forall s0, isdir_in (fs s0) (source_dir plain) = true ->
      exists s1, scanner_round plain s0 = (Ok tt, s1)).
Proof.
  assert (Hfull : maxsize <= length (queue demo_full)) by (vm_compute; lia).
  assert (Hp : "/src/a.txt" ∉ files demo_full).
  { intros Hin. apply list_elem_of_In in Hin. vm_compute in Hin.
    repeat destruct Hin as [Hin|Hin]; try discriminate Hin. exact Hin. }
  assert (Hf : isfile_in (fs demo_full) "/src/a.txt" = true) by (vm_compute; reflexivity).
  split; [by repeat split; try exact demo_pushed_reachable|].
  exact (bounded_queue_backpressure plain demo_fs demo_pushed "/src/a.txt" demo_full
           demo_pushed_reachable Hfull Hp Hf).
Defined.




(** ** Further properties of the pipeline *)

Lemma held_unique ws :
  NoDup (held ws) ->
  forall i j wi wj p,
    ws !! i = Some wi -> ws !! j = Some wj ->
    holds wi = Some p -> holds wj = Some p -> i = j.
Proof.
  unfold held. induction ws as [|w ws IH]; intros Hnd i j wi wj p Hi Hj Hwi Hwj; [done|].
  simpl in Hnd.
  destruct i as [|i], j as [|j]; simpl in *.
  - done.
  - injection Hi as ->. rewrite Hwi in Hnd. apply NoDup_cons in Hnd as [Hp _].
    exfalso. apply Hp. by eapply held_lookup.
  - injection Hj as ->. rewrite Hwj in Hnd. apply NoDup_cons in Hnd as [Hp _].
    exfalso. apply Hp. by eapply held_lookup.
  - f_equal. eapply IH; eauto.
    destruct (holds w); [by apply NoDup_cons in Hnd as [_ ?] | done].
Qed.

(** At most one worker has a given path in hand at any time, a path in a
    worker's hands is not in the queue, and the queue holds no path twice. *)
Theorem one_worker_per_path self fs0 sys :
  rtc (step self) (boot self fs0) sys ->
  (forall i j wi wj p,
     pool sys !! i = Some wi -> pool sys !! j = Some wj ->
     holds wi = Some p -> holds wj = Some p -> i = j)
  /\ (forall i wi p, pool sys !! i = Some wi -> holds wi = Some p ->
      p ∉ queue (shared sys))
  /\ NoDup (queue (shared sys))
  /\ NoDup (files (shared sys)).
Proof.
  intros Hreach.
  pose proof (inv_reachable self _ _ (inv_boot self fs0) Hreach) as Hinv.
  split; [apply held_unique, Hinv|].
  split; [|split; apply Hinv].
  intros i wi p Hi Hp Hq. apply (inv_apart _ Hinv p Hq). by eapply held_lookup.
Qed.

Lemma one_worker_per_path_witness :
  rtc (step plain) (boot plain demo_fs) demo_pushed
  /\ (forall i j wi wj p,
        pool demo_pushed !! i = Some wi -> pool demo_pushed !! j = Some wj ->
        holds wi = Some p -> holds wj = Some p -> i = j)
  /\ (forall i wi p, pool demo_pushed !! i = Some wi -> holds wi = Some p ->
      p ∉ queue (shared demo_pushed))
  /\ NoDup (queue (shared demo_pushed))
  /\ NoDup (files (shared demo_pushed)).
Proof.
  split; [exact demo_pushed_reachable|].
  exact (one_worker_per_path plain demo_fs demo_pushed demo_pushed_reachable).
Defined.


(** In move mode a file whose name already exists in the move directory is
    passed over by the scanner: the body of the scanner's loop prints the
    notice and does not come to [_append_file]. *)
Theorem move_target_blocks_enqueue self file s :
  truthy (mv self) = true ->
  isfile_in (fs s) (Path.join (mv self) file) = true ->
  (blocked <- scan_blocked self file ;;
   if blocked then ret tt else _append_file (Path.join (source_dir self) file)) s
  = (Ok tt, set_log (EvPrint Stdout (MsgAlreadyIn file (mv self)) :: log s) s).
Proof.
  intros Hmv Ht. unfold scan_blocked, os_isfile. run. rewrite Hmv. simpl. rewrite Ht. done.
Qed.

Lemma move_target_blocks_enqueue_witness :
  (truthy (mv mover) = true
   /\ isfile_in (fs (set_fs (<["/dst/a.txt" := File []]> demo_fs) demo_state))
        (Path.join (mv mover) "a.txt") = true)
  /\ (blocked <- scan_blocked mover "a.txt" ;;
      if blocked then ret tt else _append_file (Path.join (source_dir mover) "a.txt"))
       (set_fs (<["/dst/a.txt" := File []]> demo_fs) demo_state)
     = (Ok tt,
        set_log (EvPrint Stdout (MsgAlreadyIn "a.txt" (mv mover)) :: log demo_state)
          (set_fs (<["/dst/a.txt" := File []]> demo_fs) demo_state)).
Proof.
  split; [split; vm_compute; reflexivity|].
  apply (move_target_blocks_enqueue mover "a.txt"
           (set_fs (<["/dst/a.txt" := File []]> demo_fs) demo_state));
    vm_compute; reflexivity.
Defined.

(** ** The main program *)

(** [main] starts an uploader only for an existing source directory, never
    with both delete and move, and with a move directory only when that
    directory exists; the exit codes are 1 (no source directory), 3 (move
    and remove together) and 2 (no move directory), tested in this order. *)
Theorem main_validates abspath a fs0 :
  let src := resolved abspath (arg_source a) in
  let dst := resolved abspath (arg_move a) in
  match main abspath a fs0 with
  | inr up =>
      isdir_in fs0 src = true
      /\ source_dir up = src /\ server up = arg_ftp_server a
      /\ user up = arg_ftp_user a /\ passwd up = arg_ftp_password a
      /\ remote_dir up = arg_ftp_dir a /\ rm up = arg_remove a
      /\ (rm up && truthy (mv up))%bool = false
      /\ (if truthy (arg_move a) then mv up = dst /\ isdir_in fs0 dst = true
          else mv up = "")
  | inl code =>
      (code = 1 /\ isdir_in fs0 src = false)
      \/ (code = 3 /\ isdir_in fs0 src = true /\ truthy (arg_move a) = true
          /\ arg_remove a = true)
      \/ (code = 2 /\ isdir_in fs0 src = true /\ truthy (arg_move a) = true
          /\ arg_remove a = false /\ isdir_in fs0 dst = false)
  end.
Proof.
  intros src dst. unfold main.
  change (if negb (Path.isabs (arg_source a)) then abspath (arg_source a)
          else arg_source a) with src.
  change (if negb (Path.isabs (arg_move a)) then abspath (arg_move a)
          else arg_move a) with dst.
  destruct (isdir_in fs0 src) eqn:Hsrc; simpl; [|by left].
  destruct (truthy (arg_move a)) eqn:Hmv; simpl.
  - destruct (arg_remove a) eqn:Hrm; simpl; [right; left; done|].
    destruct (isdir_in fs0 dst) eqn:Hdst; simpl.
    + repeat split; done.
    + right. right. done.
  - apply truthy_false in Hmv. rewrite Hmv. simpl.
    repeat split; try done. by rewrite andb_false_r.
Qed.

(** ** The connection of one upload *)

Lemma stream_is_transfer e : stream_event e = true -> transfer_event e = true.
Proof. by destruct e. Qed.








(** ** What processing leaves on the disk *)

(** After [_process_file] the local file system is the old one, except
    after a successful run ([True]): then the file has been renamed into the
    move directory under its base name when a move directory is configured
    (also when delete is configured as well), deleted when only delete is
    configured, and left in place otherwise.  An exception that leaves
    [_process_file] leaves the file system as it was. *)
Theorem post_action_effect self w p s :
  exists r s',
    _process_file self w p s = (r, s')
    /\ fs s' = match r with
               | Ok b => after_post_action self p b (fs s)
               | Raise _ => fs s
               end.
Proof.
  destruct s as [F T N q u f rn L].
  unfold _process_file, _move_file, _delete_file, os_isfile, os_getsize, isfile_in,
    Progress.add_task, Progress.remove_task, os_rename, os_remove, after_post_action.
  crunch_with use_upload.
  all: try congruence.
  all: try solve [exfalso; eauto using dom_lookup_absurd].
  all: try solve [exfalso; match goal with
         | H : dom ?m' = dom _, H1 : ?m' !! ?i = None |- _ =>
             apply not_elem_of_dom in H1; apply H1; rewrite H; simpl;
             apply elem_of_dom; rewrite lookup_insert_eq; eauto
         end].
  all: eexists _, _; (split; [reflexivity|]); simpl;
    repeat match goal with H : _ !! _ = _ |- _ => rewrite H end;
    repeat match goal with H : truthy _ = _ |- _ => rewrite H end;
    repeat match goal with H : rm _ = _ |- _ => rewrite H end;
    try reflexivity.
Qed.

(** ** What goes over the wire *)

Lemma sent_app l1 l2 : sent (l1 ++ l2) = (sent l2 ++ sent l1)%list.
Proof.
  induction l1 as [|e l1 IH]; simpl; [by rewrite app_nil_r|].
  destruct e; rewrite ?IH, ?app_assoc; done.
Qed.

Lemma stor_loop_sent id fuel : forall data s,
  is_Some (tasks s !! id) -> length data < fuel ->
  exists s' evs,
    FTP.stor_loop fuel None 1024 (handle (Tracker id)) data s = (Ok None, s')
    /\ log s' = (evs ++ log s)%list
    /\ fs s' = fs s
    /\ sent evs = data
    /\ Forall (fun e => match e with
                        | EvSend b => 0 < length b <= 1024
                        | _ => True
                        end) evs.
Proof.
  induction fuel as [|fuel IH]; intros data s Ht Hlen; [lia|].
  rewrite stor_loop_S.
  destruct (take 1024 data) as [|b' buf] eqn:Hb.
  { assert (data = []) as -> by (by destruct data).
    exists s, []. repeat split; done. }
  unfold FTP.sendall, bind, emit, modify. rewrite handle_eq.
  destruct Ht as [t Ht]. simpl. rewrite Ht.
  match goal with |- context [FTP.stor_loop fuel _ _ _ ?d ?s1] =>
    destruct (IH d s1) as (s' & evs & -> & Hlog & Hfs & Hsent & Hall) end.
  { simpl. rewrite lookup_insert_eq. eauto. }
  { rewrite length_drop. assert (0 < length data) by (destruct data; [done|simpl; lia]). lia. }
  exists s', (evs ++ [EvUpdate id 1024; EvSend (b' :: buf)])%list.
  split; [done|]. split; [rewrite Hlog; simpl; by rewrite <- app_assoc|].
  split; [by rewrite Hfs|]. split.
  - rewrite sent_app, Hsent. simpl.
    transitivity (take 1024 data ++ drop 1024 data)%list; [by rewrite Hb | apply take_drop].
  - apply Forall_app_2; [done|]. constructor; [done|]. constructor; [|done].
    rewrite <- Hb. rewrite length_take. split; [|lia].
    assert (0 < length data) by (destruct data; [done|simpl; lia]). lia.
Qed.

(** When nothing fails, [_upload_file] answers [True] after sending the
    bytes of the file, all of them and in order, in blocks of at most 1024
    bytes, and it leaves the local file system alone. *)
Theorem upload_sends_whole_file self p name id d s :
  truthy (server self) = true ->
  fs s !! p = Some (File d) ->
  is_Some (tasks s !! id) ->
  exists s' evs,
    _upload_file self calm p name id s = (Ok true, s')
    /\ log s' = (evs ++ log s)%list
    /\ sent evs = d
    /\ Forall (fun e => match e with
                        | EvSend b => 0 < length b <= 1024
                        | _ => True
                        end) evs
    /\ fs s' = fs s.
Proof.
  intros Hhost Hfs [t Ht].
  unfold _upload_file, FTP.open, FTP.cwd, FTP.quit, FTP.set_encoding, Progress.refresh, open_rb,
    Progress.start_task, FTP.storbinary.
  rewrite Hhost. destruct (truthy (user self)); run; flat; rewrite Hfs; simpl; rewrite Ht; simpl.
  all: match goal with |- context [FTP.stor_loop ?n _ _ _ _ ?s1] =>
    destruct (stor_loop_sent id n d s1) as (s' & evs & -> & Hlog & Hfs' & Hsent & Hall);
      [ simpl; rewrite lookup_insert_eq; eauto | lia | ] end.
  all: simpl in *.
  all: eexists _, _; (split; [reflexivity|]); simpl; rewrite Hlog; simpl.
  all: split; [ext_solve|].
  all: simpl; rewrite !sent_app; simpl; rewrite Hsent, ?app_nil_r.
  all: split; [done|].
  all: split; [|by rewrite Hfs'].
  all: repeat (constructor; [done|]); apply Forall_app_2; [done|]; repeat constructor.
Qed.

Lemma upload_sends_whole_file_witness :
  (truthy (server plain) = true
   /\ fs (set_tasks {[0 := Task "a.txt" 10 0 false]} demo_state) !! "/src/a.txt"
      = Some (File (replicate 10 x00))
   /\ is_Some (tasks (set_tasks {[0 := Task "a.txt" 10 0 false]} demo_state) !! 0))
  /\ exists s' evs,
       _upload_file plain calm "/src/a.txt" "a.txt" 0
         (set_tasks {[0 := Task "a.txt" 10 0 false]} demo_state) = (Ok true, s')
       /\ log s' = (evs ++ log (set_tasks {[0 := Task "a.txt" 10 0 false]} demo_state))%list
       /\ sent evs = replicate 10 x00
       /\ Forall (fun e => match e with
                           | EvSend b => 0 < length b <= 1024
                           | _ => True
                           end) evs
       /\ fs s' = fs (set_tasks {[0 := Task "a.txt" 10 0 false]} demo_state).
Proof.
  assert (H1 : fs (set_tasks {[0 := Task "a.txt" 10 0 false]} demo_state) !! "/src/a.txt"
               = Some (File (replicate 10 x00))) by (vm_compute; reflexivity).
  assert (H2 : is_Some (tasks (set_tasks {[0 := Task "a.txt" 10 0 false]} demo_state) !! 0))
    by (vm_compute; eauto).
  split; [split; [reflexivity | split; [exact H1 | exact H2]]|].
  exact (upload_sends_whole_file plain "/src/a.txt" "a.txt" 0 _ _ eq_refl H1 H2).
Defined.

(** ** The workers never die of an exception *)

(** In every reachable state the queue's count of unfinished tasks covers
    the queued paths and the paths in the workers' hands; so the
    [task_done] in the worker's [finally] never raises, the release after
    [_process_file] always returns, and a worker thread only ever ends
    because the running flag is down. *)
Theorem workers_never_crash self fs0 sys :
  rtc (step self) (boot self fs0) sys ->
  length (queue (shared sys)) + length (held (pool sys)) <= unfinished (shared sys)
  /\ (forall i p r, pool sys !! i = Some (WorkProcessed p r) ->
      exists s', work_release self p r (shared sys) = (Ok tt, s'))
  /\ (forall i, pool sys !! i = Some WorkEnded -> run (shared sys) = false).
Proof.
  intros Hreach.
  assert (Hinv : acct sys
                 /\ forall i, pool sys !! i = Some WorkEnded -> run (shared sys) = false).
  { eapply acct_reachable; [|exact Hreach].
    split; [unfold acct, boot; simpl; rewrite held_boot; simpl; lia|].
    intros i Hi. simpl in Hi. by apply boot_pool_top in Hi. }
  destruct Hinv as [Hacct Hend]. split; [exact Hacct|]. split; [|exact Hend].
  intros i p r Hi.
  destruct (work_release self p r (shared sys)) as [res s'] eqn:Hrel.
  apply work_release_counts in Hrel as (_ & _ & Hu).
  assert (Hpos : 0 < length (held (pool sys))).
  { pose proof (held_lookup _ _ _ p Hi eq_refl) as Hin.
    destruct (held (pool sys)); [by apply elem_of_nil in Hin | simpl; lia]. }
  unfold acct in Hacct.
  destruct (unfinished (shared sys)); [lia|]. destruct Hu as [-> _]. by eexists.
Qed.

Lemma workers_never_crash_witness :
  rtc (step plain) (boot plain demo_fs) demo_pushed
  /\ length (queue (shared demo_pushed)) + length (held (pool demo_pushed))
     <= unfinished (shared demo_pushed)
  /\ (forall i p r, pool demo_pushed !! i = Some (WorkProcessed p r) ->
      exists s', work_release plain p r (shared demo_pushed) = (Ok tt, s'))
  /\ (forall i, pool demo_pushed !! i = Some WorkEnded -> run (shared demo_pushed) = false).
Proof.
  split; [exact demo_pushed_reachable|].
  exact (workers_never_crash plain demo_fs demo_pushed demo_pushed_reachable).
Defined.

(** ** After the flag is lowered, and after the scanner has ended *)

Lemma ready_insert ws i old x :
  ws !! i = Some old ->
  ready (<[i := x]> ws) + Nat.b2n (is_ready old) = ready ws + Nat.b2n (is_ready x).
Proof.
  intros Hi. unfold ready.
  rewrite <- (take_drop_middle ws i old Hi) at 2.
  rewrite insert_take_drop by (by eapply lookup_lt_Some).
  rewrite !filter_app, !length_app, !filter_cons.
  destruct (is_ready old), (is_ready x); simpl; repeat case_decide; simpl; try done; lia.
Qed.

Lemma stopped_step self sys sys' :
  step self sys sys' -> run (shared sys) = false ->
  run (shared sys') = false
  /\ ready (pool sys') <= ready (pool sys)
  /\ length (queue (shared sys))
     <= length (queue (shared sys')) + (ready (pool sys) - ready (pool sys'))
  /\ length (held (pool sys')) + ready (pool sys')
     <= length (held (pool sys)) + ready (pool sys)
  /\ (ready (pool sys) = 0 ->
      queue (shared sys) `prefix_of` queue (shared sys')
      /\ forall x, x ∈ held (pool sys') -> x ∈ held (pool sys)).
Proof.
  intros Hstep Hrun. destruct Hstep; simpl in *; try congruence.
  - apply scan_begin_effect in H as ->. simpl. repeat split; auto; lia.
  - apply scan_begin_effect in H as ->. simpl. repeat split; auto; lia.
  - repeat split; auto; lia.
  - repeat split; auto; lia.
  - apply scan_blocked_state in H as [l ->]. simpl. repeat split; auto; lia.
  - apply scan_blocked_state in H as [l ->].
    apply append_test_effect in H0 as [-> _]. simpl. repeat split; auto; lia.
  - apply append_push_state in H. destruct pushed.
    + subst s'. simpl. rewrite length_app. simpl.
      repeat split; auto; try lia. by apply prefix_app_r.
    + destruct H as [l ->]. simpl. repeat split; auto; lia.
  - apply append_record_effect in H as ->. simpl. repeat split; auto; lia.
  - apply work_take_state in H0.
    assert (Hr : forall x, is_ready x = false -> ready (<[i:=x]> ws) + 1 = ready ws).
    { intros x Hx. pose proof (ready_insert ws i WorkReady x H) as E.
      rewrite Hx in E. simpl in E. lia. }
    destruct fp as [p|]; simpl.
    + destruct H0 as (q & Hq & ->). simpl. rewrite Hq. simpl.
      destruct (truthy p).
      * pose proof (Hr (WorkHolding p) eq_refl).
        rewrite (held_insert_take ws i WorkReady (WorkHolding p) p H eq_refl eq_refl). simpl.
        repeat split; auto; lia.
      * pose proof (Hr WorkTop eq_refl).
        rewrite (held_insert_same ws i WorkReady WorkTop H eq_refl).
        repeat split; auto; lia.
    + destruct H0 as [Hq ->]. simpl. pose proof (Hr WorkTop eq_refl).
      rewrite (held_insert_same ws i WorkReady WorkTop H eq_refl).
      repeat split; auto; lia.
  - pose proof (ready_insert ws i WorkTop WorkEnded H) as E. simpl in E.
    rewrite (held_insert_same ws i WorkTop WorkEnded H eq_refl).
    repeat split; auto; lia.
  - apply process_file_frame in H0 as (-> & _ & _ & -> & _).
    pose proof (ready_insert ws i (WorkHolding p) (WorkProcessed p r) H) as E. simpl in E.
    rewrite (held_insert_same ws i (WorkHolding p) (WorkProcessed p r) H eq_refl).
    repeat split; auto; lia.
  - apply work_release_counts in H0 as (-> & -> & _).
    set (x := match res with Ok _ => WorkTop | Raise _ => WorkEnded end).
    assert (Hx : holds x = None /\ is_ready x = false) by (unfold x; by destruct res).
    destruct Hx as [Hx Hx'].
    pose proof (ready_insert ws i (WorkProcessed p r) x H) as E. rewrite Hx' in E. simpl in E.
    pose proof (held_insert_drop ws i (WorkProcessed p r) x p H eq_refl Hx) as Hperm.
    assert (Hlen : length (held ws) = S (length (held (<[i:=x]> ws)))) by (by rewrite Hperm).
    repeat split; auto; try lia.
    intros y Hy. rewrite Hperm. by right.
  - repeat split; auto; lia.
  - repeat split; auto; lia.
Qed.

(** Once the running flag is down it stays down, and only a worker that
    had already passed the test of the flag still takes a path, once: the
    number of such workers never grows, and the queue loses at most one
    path for each of them.  When there is no such worker, whatever is in
    the queue stays there, in order, and the workers' hands only empty: the
    paths still queued are never uploaded. *)
Theorem stop_abandons_queue self sys sys' :
  run (shared sys) = false ->
  rtc (step self) sys sys' ->
  run (shared sys') = false
  /\ ready (pool sys') <= ready (pool sys)
  /\ length (queue (shared sys))
     <= length (queue (shared sys')) + (ready (pool sys) - ready (pool sys'))
  /\ length (held (pool sys')) + ready (pool sys')
     <= length (held (pool sys)) + ready (pool sys)
  /\ (ready (pool sys) = 0 ->
      queue (shared sys) `prefix_of` queue (shared sys')
      /\ forall x, x ∈ held (pool sys') -> x ∈ held (pool sys)).
Proof.
  intros Hrun Hrtc. induction Hrtc as [x|x y z Hstep _ IH].
  - repeat split; auto; lia.
  - destruct (stopped_step self x y Hstep Hrun) as (Hrun' & Hr & Hq & Hh & Hz).
    destruct (IH Hrun') as (Hrun'' & Hr' & Hq' & Hh' & Hz').
    split; [done|]. split; [lia|]. split; [lia|]. split; [lia|].
    intros H0. destruct (Hz H0) as [Hpre Hsub].
    destruct Hz' as [Hpre' Hsub']; [lia|].
    split; [by etrans | auto].
Qed.

Lemma stop_abandons_queue_witness :
  (run (shared (System (set_run false demo_scanned) ScanTop [WorkReady; WorkTop; WorkTop]))
     = false
   /\ rtc (step plain)
        (System (set_run false demo_scanned) ScanTop [WorkReady; WorkTop; WorkTop])
        (System (set_queue ["/src/b.txt"] (set_run false demo_scanned)) ScanTop
           [WorkHolding "/src/a.txt"; WorkTop; WorkTop]))
  /\ run (set_queue ["/src/b.txt"] (set_run false demo_scanned)) = false
  /\ ready [WorkHolding "/src/a.txt"; WorkTop; WorkTop] <= ready [WorkReady; WorkTop; WorkTop]
  /\ length (queue (set_run false demo_scanned))
     <= length (queue (set_queue ["/src/b.txt"] (set_run false demo_scanned)))
        + (ready [WorkReady; WorkTop; WorkTop]
           - ready [WorkHolding "/src/a.txt"; WorkTop; WorkTop])
  /\ length (held [WorkHolding "/src/a.txt"; WorkTop; WorkTop])
     + ready [WorkHolding "/src/a.txt"; WorkTop; WorkTop]
     <= length (held [WorkReady; WorkTop; WorkTop]) + ready [WorkReady; WorkTop; WorkTop]
  /\ (ready [WorkReady; WorkTop; WorkTop] = 0 ->
      queue (set_run false demo_scanned)
        `prefix_of` queue (set_queue ["/src/b.txt"] (set_run false demo_scanned))
      /\ forall x, x ∈ held [WorkHolding "/src/a.txt"; WorkTop; WorkTop] ->
                   x ∈ held [WorkReady; WorkTop; WorkTop]).
Proof.
  assert (Hrtc : rtc (step plain)
            (System (set_run false demo_scanned) ScanTop [WorkReady; WorkTop; WorkTop])
            (System (set_queue ["/src/b.txt"] (set_run false demo_scanned)) ScanTop
               [WorkHolding "/src/a.txt"; WorkTop; WorkTop])).
  { apply rtc_once.
    exact (step_work_take plain (set_run false demo_scanned) _ ScanTop
             [WorkReady; WorkTop; WorkTop] 0 (Some "/src/a.txt") eq_refl eq_refl). }
  split; [by split|].
  exact (stop_abandons_queue plain
           (System (set_run false demo_scanned) ScanTop [WorkReady; WorkTop; WorkTop])
           (System (set_queue ["/src/b.txt"] (set_run false demo_scanned)) ScanTop
              [WorkHolding "/src/a.txt"; WorkTop; WorkTop])
           eq_refl Hrtc).
Defined.

Lemma ended_step self sys sys' :
  step self sys sys' -> scanner sys = ScanEnded ->
  scanner sys' = ScanEnded
  /\ (forall x, x ∈ queue (shared sys') -> x ∈ queue (shared sys))
  /\ (forall x, x ∈ files (shared sys') -> x ∈ files (shared sys)).
Proof.
  intros Hstep Hsc. destruct Hstep; simpl in *; try discriminate Hsc.
  - done.
  - apply work_take_state in H0. split; [done|].
    destruct fp as [p|].
    + destruct H0 as (q & Hq & ->). simpl. rewrite Hq. split; [by right | done].
    + destruct H0 as [_ ->]. done.
  - done.
  - apply process_file_frame in H0 as (-> & -> & _). done.
  - destruct (work_release_spec self p r s) as (res' & s1 & Heq & Eq & _ & _ & Ef & _).
    rewrite Heq in H0. injection H0 as <- <-. rewrite Eq, Ef.
    split; [done|]. split; [done|]. intros x.
    destruct r; [|done]. destruct (rm self || truthy (mv self))%bool; [|done].
    destruct (remove_first p (files s)) as [l|] eqn:Hrem; [|done]. simpl.
    apply remove_first_Some in Hrem as (_ & Hsub & _). auto.
  - done.
  - done.
Qed.

(** [_scanner_thread] catches nothing: when the source directory is gone
    at a pass, [listdir] raises and the thread ends, in two steps: the test
    of the flag, then the listing.  From then on nothing is enqueued and
    nothing new is tracked, while the workers go on with what is queued. *)
Theorem scanner_ends_when_directory_is_gone self s ws :
  isdir_in (fs s) (source_dir self) = false ->
  run s = true ->
  scanner_round self s = (Raise FileNotFoundError, set_log (EvSleep 1 :: log s) s)
  /\ step self (System s ScanTop ws) (System s ScanAwake ws)
  /\ step self (System s ScanAwake ws) (System (set_log (EvSleep 1 :: log s) s) ScanEnded ws)
  /\ (forall sys',
        rtc (step self) (System (set_log (EvSleep 1 :: log s) s) ScanEnded ws) sys' ->
        scanner sys' = ScanEnded
        /\ (forall x, x ∈ queue (shared sys') -> x ∈ queue s)
        /\ (forall x, x ∈ files (shared sys') -> x ∈ files s)).
Proof.
  intros Hd Hrun.
  assert (Hb : scan_begin self s = (Raise FileNotFoundError, set_log (EvSleep 1 :: log s) s)).
  { unfold scan_begin, os_listdir. run. by rewrite Hd. }
  split; [|split; [|split]].
  - rewrite scanner_round_cut. unfold bind. by rewrite Hb.
  - by apply step_scan_enter.
  - by eapply step_scan_crash.
  - intros sys' Hrtc.
    remember (System (set_log (EvSleep 1 :: log s) s) ScanEnded ws) as sys0 eqn:Hsys0.
    assert (Hgen : scanner sys0 = ScanEnded ->
              scanner sys' = ScanEnded
              /\ (forall x, x ∈ queue (shared sys') -> x ∈ queue (shared sys0))
              /\ (forall x, x ∈ files (shared sys') -> x ∈ files (shared sys0))).
    { clear Hsys0. induction Hrtc as [|x y z Hstep _ IH]; [done|]. intros Hx.
      destruct (ended_step self x y Hstep Hx) as (Hy & Hq & Hf).
      destruct (IH Hy) as (Hz & Hq' & Hf'). split; [done|]. split; auto. }
    subst sys0. apply Hgen. done.
Qed.

Lemma scanner_ends_when_directory_is_gone_witness :
  (isdir_in (fs (set_fs ∅ demo_state)) (source_dir plain) = false
   /\ run (set_fs ∅ demo_state) = true)
  /\ scanner_round plain (set_fs ∅ demo_state)
     = (Raise FileNotFoundError,
        set_log (EvSleep 1 :: log (set_fs ∅ demo_state)) (set_fs ∅ demo_state))
  /\ step plain (System (set_fs ∅ demo_state) ScanTop [WorkTop])
       (System (set_fs ∅ demo_state) ScanAwake [WorkTop])
  /\ step plain (System (set_fs ∅ demo_state) ScanAwake [WorkTop])
       (System (set_log (EvSleep 1 :: log (set_fs ∅ demo_state)) (set_fs ∅ demo_state))
          ScanEnded [WorkTop])
  /\ (forall sys',
        rtc (step plain)
          (System (set_log (EvSleep 1 :: log (set_fs ∅ demo_state)) (set_fs ∅ demo_state))
             ScanEnded [WorkTop]) sys' ->
        scanner sys' = ScanEnded
        /\ (forall x, x ∈ queue (shared sys') -> x ∈ queue (set_fs ∅ demo_state))
        /\ (forall x, x ∈ files (shared sys') -> x ∈ files (set_fs ∅ demo_state))).
Proof.
  split; [split; reflexivity|].
  exact (scanner_ends_when_directory_is_gone plain (set_fs ∅ demo_state) [WorkTop]
           eq_refl eq_refl).
Defined.

(** ** Names and paths *)

Lemma append_cons x (a b : string) : (String x a ++ b = String x (a ++ b))%string.
Proof. reflexivity. Qed.

Lemma append_nil (b : string) : ("" ++ b = b)%string.
Proof. reflexivity. Qed.

Lemma string_app_assoc (a b c : string) : ((a ++ b) ++ c = a ++ (b ++ c))%string.
Proof. induction a as [|x a' IH]; [done|]. rewrite !append_cons. by rewrite IH. Qed.

Lemma has_sep_app a b : Path.has_sep (a ++ b) = (Path.has_sep a || Path.has_sep b)%bool.
Proof.
  induction a as [|c a IH]; [done|]. rewrite append_cons. simpl.
  destruct (Ascii.eqb c Path.sep); [done | exact IH].
Qed.

Lemma sepfree_not_leading n : Path.has_sep n = false -> Path.startswith_sep n = false.
Proof. destruct n as [|c n]; simpl; [done|]. by destruct (Ascii.eqb c Path.sep). Qed.

Lemma basename_sepfree n : Path.has_sep n = false -> Path.basename n = n.
Proof.
  destruct n as [|c n]; simpl; [done|].
  destruct (Ascii.eqb c Path.sep); [done|]. by intros ->.
Qed.

Lemma basename_after_sep a n :
  Path.has_sep n = false -> Path.basename (a ++ String Path.sep n) = n.
Proof.
  intros Hn. induction a as [|c a IH].
  - rewrite append_nil. simpl. by rewrite Hn.
  - rewrite append_cons. simpl. rewrite has_sep_app. simpl.
    rewrite orb_true_r. exact IH.
Qed.

Lemma endswith_sep_split a :
  Path.endswith_sep a = true -> exists a0, a = (a0 ++ String Path.sep "")%string.
Proof.
  induction a as [|c a IH]; simpl; [done|].
  destruct a as [|c' a'].
  - intros Hc. apply Ascii.eqb_eq in Hc as ->. by exists "".
  - intros H. destruct (IH H) as [a0 Ha0]. exists (String c a0).
    rewrite append_cons. by rewrite Ha0.
Qed.

Lemma join_sepfree d n :
  Path.has_sep n = false -> d <> "" ->
  Path.join d n
  = ((if Path.endswith_sep d then d else d ++ String Path.sep "") ++ n)%string.
Proof.
  intros Hn Hd. unfold Path.join. rewrite (sepfree_not_leading n Hn).
  destruct (String.eqb_spec d ""); [done|]. simpl.
  destruct (Path.endswith_sep d); [done|].
  by rewrite string_app_assoc, append_cons, append_nil.
Qed.

Lemma basename_join d n : Path.has_sep n = false -> Path.basename (Path.join d n) = n.
Proof.
  intros Hn. unfold Path.join. rewrite (sepfree_not_leading n Hn).
  destruct (String.eqb_spec d "") as [->|Hd]; simpl; [by apply basename_sepfree|].
  destruct (Path.endswith_sep d) eqn:He.
  - destruct (endswith_sep_split d He) as [a0 ->].
    rewrite string_app_assoc, append_cons, append_nil. by apply basename_after_sep.
  - by apply basename_after_sep.
Qed.

Lemma strip_prefix_Some pre k n :
  Path.strip_prefix pre k = Some n -> k = (pre ++ n)%string.
Proof.
  revert k. induction pre as [|a pre IH]; intros k; simpl.
  - by intros [= ->].
  - destruct k as [|b k]; [done|].
    destruct (Ascii.eqb_spec a b) as [->|]; [|done].
    intros H. by rewrite append_cons, (IH k H).
Qed.

(** Every name the scanner gets from listing a directory is a plain name
    (not empty, no separator); joined to the directory it is the path of the
    very entry that was listed, and the base name of that path, under which
    the file is uploaded and moved, is the name again. *)
Theorem listed_names_round_trip (fs0 : gmap string node) d name :
  d <> "" ->
  name ∈ entries fs0 d ->
  name <> ""
  /\ Path.has_sep name = false
  /\ is_Some (fs0 !! Path.join d name)
  /\ Path.basename (Path.join d name) = name.
Proof.
  intros Hd Hin. unfold entries in Hin.
  apply list_elem_of_omap in Hin as (k & Hk & Hname).
  unfold Path.entry_name in Hname.
  destruct (Path.strip_prefix _ k) as [n|] eqn:Hstrip; [|done].
  destruct (String.eqb_spec n "") as [|Hne]; [done|]. simpl in Hname.
  destruct (Path.has_sep n) eqn:Hsep; [done|]. injection Hname as ->.
  apply strip_prefix_Some in Hstrip.
  split; [done|]. split; [done|]. split; [|by apply basename_join].
  rewrite (join_sepfree d name Hsep Hd), <- Hstrip.
  apply list_elem_of_fmap in Hk as ([k' v] & -> & Hkv).
  apply elem_of_map_to_list in Hkv. simpl. eauto.
Qed.

Lemma listed_names_round_trip_witness :
  ("/src" <> "" /\ "a.txt" ∈ entries demo_fs "/src")
  /\ "a.txt" <> ""
  /\ Path.has_sep "a.txt" = false
  /\ is_Some (demo_fs !! Path.join "/src" "a.txt")
  /\ Path.basename (Path.join "/src" "a.txt") = "a.txt".
Proof.
  assert (Hd : "/src" <> "") by done.
  assert (Hin : "a.txt" ∈ entries demo_fs "/src").
  { apply list_elem_of_In. vm_compute. auto. }
  split; [by split|].
  exact (listed_names_round_trip demo_fs "/src" "a.txt" Hd Hin).
Defined.

(** ** A pass of the scanner, whatever the room *)

Lemma visit_only_files self file s :
  exists s',
    visit self file s = (Ok tt, s')
    /\ fs s' = fs s
    /\ (forall x, x ∈ queue s -> x ∈ queue s')
    /\ (forall x, x ∈ files s -> x ∈ files s')
    /\ (forall x, x ∈ files s' -> (x ∈ files s) \/ (x ∈ queue s'))
    /\ (forall x, x ∈ queue s' ->
        (x ∈ queue s)
        \/ (x = Path.join (source_dir self) file
            /\ isfile_in (fs s) x = true /\ (x ∉ files s)
            /\ (truthy (mv self) = true ->
                isfile_in (fs s) (Path.join (mv self) file) = false))).
Proof.
  unfold visit, scan_blocked, os_isfile, bind, ret, get.
  assert (Hsame : forall s0 : state,
            fs s0 = fs s -> queue s0 = queue s -> files s0 = files s ->
            fs s0 = fs s
            /\ (forall x, x ∈ queue s -> x ∈ queue s0)
            /\ (forall x, x ∈ files s -> x ∈ files s0)
            /\ (forall x, x ∈ files s0 -> (x ∈ files s) \/ (x ∈ queue s0))
            /\ (forall x, x ∈ queue s0 ->
                (x ∈ queue s)
                \/ (x = Path.join (source_dir self) file
                    /\ isfile_in (fs s) x = true /\ (x ∉ files s)
                    /\ (truthy (mv self) = true ->
                        isfile_in (fs s) (Path.join (mv self) file) = false)))).
  { intros s0 -> -> ->. repeat split; auto. }
  assert (Happ : (truthy (mv self) = true ->
                  isfile_in (fs s) (Path.join (mv self) file) = false) ->
            exists s',
            _append_file (Path.join (source_dir self) file) s = (Ok tt, s')
            /\ fs s' = fs s
            /\ (forall x, x ∈ queue s -> x ∈ queue s')
            /\ (forall x, x ∈ files s -> x ∈ files s')
            /\ (forall x, x ∈ files s' -> (x ∈ files s) \/ (x ∈ queue s'))
            /\ (forall x, x ∈ queue s' ->
                (x ∈ queue s)
                \/ (x = Path.join (source_dir self) file
                    /\ isfile_in (fs s) x = true /\ (x ∉ files s)
                    /\ (truthy (mv self) = true ->
                        isfile_in (fs s) (Path.join (mv self) file) = false)))).
  { intros Hmvok. rewrite append_file_eq.
    destruct (bool_decide (Path.join (source_dir self) file ∈ files s)) eqn:Hin.
    { eexists. split; [reflexivity|]. by apply Hsame. }
    apply bool_decide_eq_false in Hin.
    destruct (isfile_in (fs s) (Path.join (source_dir self) file)) eqn:Hf; cbn [negb].
    2:{ eexists. split; [reflexivity|]. by apply Hsame. }
    destruct (Nat.leb maxsize (length (queue s))) eqn:E.
    { eexists. split; [reflexivity|]. by apply Hsame. }
    eexists. split; [reflexivity|]. simpl.
    split; [done|].
    split; [intros x Hx; apply elem_of_app; auto|].
    split; [intros x Hx; apply elem_of_app; auto|].
    split.
    - intros x [Hx| ->%list_elem_of_singleton]%elem_of_app; [by left|].
      right. apply elem_of_app. right. by apply list_elem_of_singleton.
    - intros x [Hx| ->%list_elem_of_singleton]%elem_of_app; [by left|]. right. done. }
  destruct (truthy (mv self)) eqn:Hmv.
  - destruct (isfile_in (fs s) (Path.join (mv self) file)) eqn:Ht.
    + eexists. split; [reflexivity|]. by apply Hsame.
    + apply Happ. done.
  - apply Happ. done.
Qed.

Lemma for_each_only_files self found : forall s,
  exists s',
    for_each found (visit self) s = (Ok tt, s')
    /\ fs s' = fs s
    /\ (forall x, x ∈ queue s -> x ∈ queue s')
    /\ (forall x, x ∈ files s -> x ∈ files s')
    /\ (forall x, x ∈ files s' -> (x ∈ files s) \/ (x ∈ queue s'))
    /\ (forall x, x ∈ queue s' ->
        (x ∈ queue s)
        \/ (exists file, file ∈ found
            /\ x = Path.join (source_dir self) file
            /\ isfile_in (fs s) x = true /\ (x ∉ files s)
            /\ (truthy (mv self) = true ->
                isfile_in (fs s) (Path.join (mv self) file) = false))).
Proof.
  induction found as [|file rest IH]; intros s; simpl.
  - exists s. repeat split; auto.
  - destruct (visit_only_files self file s) as (s1 & Hv & Hfs & Hqm & Hf & Hback & Hq).
    unfold bind. rewrite Hv.
    destruct (IH s1) as (s' & -> & Hfs' & Hqm' & Hf' & Hback' & Hq').
    exists s'. split; [done|]. split; [congruence|]. split; [auto|]. split; [auto|]. split.
    + intros x Hx. destruct (Hback' x Hx) as [H1|H1]; [|by right].
      destruct (Hback x H1) as [H2|H2]; [by left | right; auto].
    + intros x Hx. destruct (Hq' x Hx) as [H1|(f & Hin & -> & Hfile & Hfresh & Hmv)].
      * destruct (Hq x H1) as [?|(-> & ? & ? & ?)]; [by left|]. right.
        exists file. split; [left|]. done.
      * right. exists f. split; [by right|]. split; [done|].
        rewrite <- Hfs. split; [done|]. split; [auto|]. done.
Qed.

(** A pass of the scanner over an existing directory changes no file and
    enqueues nothing but regular files listed in the source directory that
    were not tracked before (and, in move mode, not present in the move
    directory); it tracks only what it has put into the queue. *)
Theorem scanner_enqueues_only_files self s :
  isdir_in (fs s) (source_dir self) = true ->
  exists s',
    scanner_round self s = (Ok tt, s')
    /\ fs s' = fs s
    /\ (forall x, x ∈ files s' -> (x ∈ files s) \/ (x ∈ queue s'))
    /\ (forall x, x ∈ queue s' ->
        (x ∈ queue s)
        \/ (exists name, name ∈ entries (fs s) (source_dir self)
            /\ x = Path.join (source_dir self) name
            /\ isfile_in (fs s) x = true /\ (x ∉ files s)
            /\ (truthy (mv self) = true ->
                isfile_in (fs s) (Path.join (mv self) name) = false))).
Proof.
  intros Hd. rewrite scanner_round_visits.
  unfold scan_begin, os_listdir, bind, sleep, emit, modify, get. simpl. rewrite Hd.
  set (found := filter _ _).
  destruct (for_each_only_files self found (set_log (EvSleep 1 :: log s) s))
    as (s' & -> & Hfs & _ & _ & Hback & Hq).
  exists s'. split; [done|]. split; [done|]. split; [done|].
  intros x Hx. destruct (Hq x Hx) as [?|(f & Hin & ? & ? & ? & ?)]; [by left|].
  right. exists f. split; [|done].
  by apply list_elem_of_filter in Hin as [_ ?].
Qed.

Lemma scanner_enqueues_only_files_witness :
  isdir_in (fs demo_state) (source_dir plain) = true
  /\ exists s',
       scanner_round plain demo_state = (Ok tt, s')
       /\ fs s' = fs demo_state
       /\ (forall x, x ∈ files s' -> (x ∈ files demo_state) \/ (x ∈ queue s'))
       /\ (forall x, x ∈ queue s' ->
           (x ∈ queue demo_state)
           \/ (exists name, name ∈ entries (fs demo_state) (source_dir plain)
               /\ x = Path.join (source_dir plain) name
               /\ isfile_in (fs demo_state) x = true /\ (x ∉ files demo_state)
               /\ (truthy (mv plain) = true ->
                   isfile_in (fs demo_state) (Path.join (mv plain) name) = false))).
Proof.
  assert (Hd : isdir_in (fs demo_state) (source_dir plain) = true) by (vm_compute; reflexivity).
  split; [exact Hd|].
  exact (scanner_enqueues_only_files plain demo_state Hd).
Defined.

(** ** Releasing a path that is not tracked *)

(** When the path a worker took is not in the tracked list (the scanner
    had put it and not yet appended it) and [_process_file] has returned,
    the [remove] raises [ValueError], which the worker swallows without a
    message: the round ends as if nothing had been released, and the queue
    item is acknowledged all the same. *)
Theorem release_untracked_is_silent self w p q s :
  queue s = p :: q -> truthy p = true -> p ∉ files s ->
  exists r s1 res s',
    _process_file self w p (set_queue q s) = (r, s1)
    /\ worker_round self w s = (res, s')
    /\ files s' = files s /\ queue s' = q
    /\ (forall b, r = Ok b -> log s' = log s1) /\ fs s' = fs s1 /\ tasks s' = tasks s1
    /\ unfinished s' = pred (unfinished s).
Proof.
  intros Hq Hp Hf. rewrite (worker_round_eq self w p q s Hq Hp).
  destruct (_process_file self w p (set_queue q s)) as [r s1] eqn:Hproc.
  destruct (process_file_frame self w p _ r s1 Hproc) as (Hq1 & Hf1 & Hu1 & _ & _).
  destruct (work_release self p r s1) as [res s'] eqn:Hrel.
  pose proof (work_release_counts self p r s1 res s' Hrel) as (_ & _ & Hu).
  destruct (work_release_spec self p r s1) as (res' & s2 & Heq & Eq & Efs & Et & Ef & El).
  rewrite Hrel in Heq. injection Heq as <- <-.
  exists r, s1, res, s'. split; [done|]. split; [done|].
  assert (Hnone : remove_first p (files s1) = None).
  { apply remove_first_None. by rewrite Hf1. }
  rewrite Hnone in Ef. simpl in Ef.
  split; [rewrite Ef, Hf1; destruct r; [by destruct (rm self || truthy (mv self))%bool | done]|].
  split; [by rewrite Eq, Hq1|]. split; [exact El|]. split; [done|]. split; [done|].
  rewrite Hu1 in Hu. simpl in Hu. destruct (unfinished s); by destruct Hu.
Qed.

Lemma release_untracked_is_silent_witness :
  (queue (shared demo_pushed) = "/src/a.txt" :: [] /\ truthy "/src/a.txt" = true
   /\ ("/src/a.txt" ∉ files (shared demo_pushed)))
  /\ exists r s1 res s',
       _process_file remover calm "/src/a.txt" (set_queue [] (shared demo_pushed)) = (r, s1)
       /\ worker_round remover calm (shared demo_pushed) = (res, s')
       /\ files s' = files (shared demo_pushed) /\ queue s' = []
       /\ (forall b, r = Ok b -> log s' = log s1) /\ fs s' = fs s1 /\ tasks s' = tasks s1
       /\ unfinished s' = pred (unfinished (shared demo_pushed)).
Proof.
  assert (Hf : "/src/a.txt" ∉ files (shared demo_pushed)) by apply not_elem_of_nil.
  split; [by repeat split|].
  exact (release_untracked_is_silent remover calm "/src/a.txt" [] (shared demo_pushed)
           eq_refl eq_refl Hf).
Defined.

(** ** The tracker, in general *)

(** In an undisturbed transfer the tracker reports 1024 bytes for every
    block that goes out, that is 1024 times the number of blocks a file of
    that size takes; the report equals the size of the file exactly when
    the size is a multiple of 1024. *)
Theorem tracker_reports_whole_blocks id cmd data s :
  is_Some (tasks s !! id) ->
  exists s' evs,
    FTP.storbinary calm cmd data 1024 (handle (Tracker id)) s = (Ok tt, s')
    /\ log s' = (evs ++ log s)%list
    /\ advanced id evs = 1024 * ((length data + 1023) / 1024)
    /\ (advanced id evs = length data <-> length data mod 1024 = 0).
Proof.
  intros Ht. destruct (storbinary_advance id cmd data s Ht) as (s' & evs & Heq & Hlog & Hadv).
  exists s', evs. split; [done|]. split; [done|]. split; [done|].
  rewrite Hadv.
  pose proof (Nat.div_mod_eq (length data + 1023) 1024) as Hdm.
  pose proof (Nat.mod_upper_bound (length data + 1023) 1024 ltac:(lia)) as Hlt.
  pose proof (Nat.div_mod_eq (length data) 1024) as Hdm'.
  pose proof (Nat.mod_upper_bound (length data) 1024 ltac:(lia)) as Hlt'.
  split.
  - intros Heq'. 
    assert (length data = 1024 * ((length data + 1023) / 1024)) as Hmul by lia.
    rewrite Hmul at 1. rewrite Nat.mul_comm. apply Nat.Div0.mod_mul.
  - intros Hmod. rewrite Hmod, Nat.add_0_r in Hdm'.
    rewrite Hdm' at 1.
    replace (1024 * (length data / 1024) + 1023)
      with (1023 + (length data / 1024) * 1024) by lia.
    rewrite Nat.div_add by lia. rewrite (Nat.div_small 1023 1024) by lia. lia.
Qed.

Lemma tracker_reports_whole_blocks_witness :
  is_Some (tasks (set_tasks {[0 := Task "a.txt" 10 0 true]} demo_state) !! 0)
  /\ exists s' evs,
       FTP.storbinary calm "STOR a.txt" (replicate 10 x00) 1024 (handle (Tracker 0))
         (set_tasks {[0 := Task "a.txt" 10 0 true]} demo_state) = (Ok tt, s')
       /\ log s' = (evs ++ log (set_tasks {[0 := Task "a.txt" 10 0 true]} demo_state))%list
       /\ advanced 0 evs = 1024 * ((length (replicate 10 x00) + 1023) / 1024)
       /\ (advanced 0 evs = length (replicate 10 x00)
           <-> length (replicate 10 x00) mod 1024 = 0).
Proof.
  assert (H : is_Some (tasks (set_tasks {[0 := Task "a.txt" 10 0 true]} demo_state) !! 0))
    by (vm_compute; eauto).
  split; [exact H|].
  exact (tracker_reports_whole_blocks 0 "STOR a.txt" (replicate 10 x00) _ H).
Defined.

(** ** A server that keeps refusing the log-in *)




